(** * Bear / libexec: the preloaded interception library (source/libexec/lib.cc)

    A shallow embedding of the driver [lib.cc]: the two variadic helpers
    [va_length] and [va_copy_n], the load and unload hooks, and the eleven
    overridden process-creation entry points.  The collaborators the driver
    includes from [libexec_a/] (Environment, Storage, Session, Resolver,
    Executor) are not part of the driver; they are modelled from the
    specification and every such definition says so in its comment. *)

From Stdlib Require Import ZArith Ascii String List Bool Lia.
From stdpp Require Import base tactics option list.
Import ListNotations.

Local Open Scope string_scope.
Local Open Scope list_scope.
Local Open Scope Z_scope.

(** ** C data *)

(** [size_t] is an unsigned 64-bit integer: arithmetic wraps modulo 2^64. *)
Definition SIZE_WIDTH : Z := 64.
Definition size_t (z : Z) : Z := z mod 2 ^ SIZE_WIDTH.

(** A pointer-sized C value as the driver handles them: the null pointer, a
    [char *] to a NUL-terminated string, a [char **] to a null-terminated
    vector of strings, or an indeterminate value (a slot of a fresh array that
    nothing was stored to yet). *)
Inductive cval : Type :=
| Null
| Str (s : string)
| Vec (v : list string)
| Undef.

(** A [va_list] is the sequence of variadic arguments not yet read. *)
Definition va_list : Type := list cval.

(** [va_arg] at type [char*]: the next argument, read as a character pointer.
    Reading when no argument is left, or an argument of another type, is
    undefined: [None]. *)
Definition va_arg_str (args : va_list) : option (cval * va_list) :=
  match args with
  | Null :: rest => Some (Null, rest)
  | Str s :: rest => Some (Str s, rest)
  | _ => None
  end.

(** A [char **] as [execle] reads it and as the Executor methods and the
    original implementations receive their [envp]: the null pointer, or a
    pointer to a null-terminated vector of strings.  A vector of strings is
    used as the pointer to it wherever an [envp_t] is expected. *)
Inductive envp_t : Type :=
| NullEnvp
| Envp (v : list string).

#[warning="-uniform-inheritance"] Coercion Envp : list >-> envp_t.

(** The strings an [envp] holds; a null [envp] holds none. *)
Definition entries_of (e : envp_t) : list string :=
  match e with
  | NullEnvp => []
  | Envp v => v
  end.

(** [va_arg] at type [char**]: the next argument, read as a pointer to a vector
    of strings, which may be the null pointer.  Reading when no argument is
    left, or a string or an indeterminate value, is undefined. *)
Definition va_arg_vec (args : va_list) : option (envp_t * va_list) :=
  match args with
  | Vec v :: rest => Some (Envp v, rest)
  | Null :: rest => Some (NullEnvp, rest)
  | _ => None
  end.

(** [argv[i] = v] on an array of known extent; a store outside the array is
    undefined. *)
Definition array_store (a : list cval) (i : nat) (v : cval) : option (list cval) :=
  if decide (i < length a)%nat then Some (<[i := v]> a) else None.

(** How a callee reads a [char *const argv[]]: the strings up to the first
    null pointer.  Running off the array, or meeting a slot that holds no
    string, is undefined. *)
Fixpoint c_strings (a : list cval) : option (list string) :=
  match a with
  | Null :: _ => Some []
  | Str s :: rest =>
      match c_strings rest with
      | Some l => Some (s :: l)
      | None => None
      end
  | _ => None
  end.

(** ** The variadic helpers of lib.cc *)

(** [size_t va_length(va_list &args)]

    {[ size_t arg_count = 0;
       while (va_arg<const char*>(args) != nullptr) ++arg_count;
       return arg_count; ]}

    The traversal state is passed by reference, so the remaining arguments
    are returned with the count.  The loop reads one argument per iteration,
    hence the recursion on the unread arguments. *)
Fixpoint va_length_loop (arg_count : Z) (args : va_list) : option (Z * va_list) :=
  match va_arg_str args, args with
  | Some (Null, rest), _ => Some (arg_count, rest)
  | Some (_, _), _ :: rest => va_length_loop (size_t (arg_count + 1)) rest
  | _, _ => None
  end.

Definition va_length (args : va_list) : option (Z * va_list) :=
  va_length_loop 0 args.

(** [void va_copy_n(va_list &args, char *argv[], size_t const argc)]

    {[ for (size_t idx = 0; idx <= argc; ++idx)
           argv[idx] = va_arg<char*>(args); ]}

    [argv] points into an array [a] at offset [base] (the driver passes
    [&argv[1]]).  Every iteration reads one argument, hence the recursion on
    the unread arguments. *)
Fixpoint va_copy_n_loop (idx : Z) (args : va_list) (a : list cval)
    (base : nat) (argc : Z) {struct args} : option (list cval * va_list) :=
  if idx <=? argc then
    match va_arg_str args, args with
    | Some (v, _), _ :: rest =>
        match array_store a (base + Z.to_nat idx) v with
        | Some a' => va_copy_n_loop (size_t (idx + 1)) rest a' base argc
        | None => None
        end
    | _, _ => None
    end
  else Some (a, args).

Definition va_copy_n (args : va_list) (a : list cval) (base : nat) (argc : Z)
    : option (list cval * va_list) :=
  va_copy_n_loop 0 args a base argc.

(** ** The process the library is loaded into *)

(** An opaque pointer the driver only passes on: [pid_t *],
    [posix_spawn_file_actions_t *], [posix_spawnattr_t *]. *)
Definition handle : Type := Z.

(** A call of one of the five methods of [ear::Executor], which are also the
    five shapes of the original implementations the calls end in. *)
Inductive request : Type :=
| Execve (path : string) (argv : list string) (envp : envp_t)
| Execvpe (file : string) (argv : list string) (envp : envp_t)
| ExecvP (file search_path : string) (argv : list string) (envp : envp_t)
| PosixSpawn (pid : handle) (path : string) (file_actions attrp : handle)
    (argv : list string) (envp : envp_t)
| PosixSpawnp (pid : handle) (file : string) (file_actions attrp : handle)
    (argv : list string) (envp : envp_t).

(** The name under which the original implementation of a shape is looked up. *)
Definition symbol (r : request) : string :=
  match r with
  | Execve _ _ _ => "execve"
  | Execvpe _ _ _ => "execvpe"
  | ExecvP _ _ _ _ => "execvP"
  | PosixSpawn _ _ _ _ _ _ => "posix_spawn"
  | PosixSpawnp _ _ _ _ _ _ => "posix_spawnp"
  end.

Definition target_of (r : request) : string :=
  match r with
  | Execve p _ _ | Execvpe p _ _ | ExecvP p _ _ _
  | PosixSpawn _ p _ _ _ _ | PosixSpawnp _ p _ _ _ _ => p
  end.

Definition argv_of (r : request) : list string :=
  match r with
  | Execve _ a _ | Execvpe _ a _ | ExecvP _ _ a _
  | PosixSpawn _ _ _ _ a _ | PosixSpawnp _ _ _ _ a _ => a
  end.

Definition envp_of (r : request) : envp_t :=
  match r with
  | Execve _ _ e | Execvpe _ _ e | ExecvP _ _ _ e
  | PosixSpawn _ _ _ _ _ e | PosixSpawnp _ _ _ _ _ e => e
  end.

(** The output pointer for the child identifier, for the spawn shapes. *)
Definition out_pointer (r : request) : option handle :=
  match r with
  | PosixSpawn pid _ _ _ _ _ | PosixSpawnp pid _ _ _ _ _ => Some pid
  | _ => None
  end.

(** The same shape of call, aimed at another executable with other vectors;
    everything else (search list, output pointer, file actions, attributes)
    is kept. *)
Definition retarget (r : request) (p : string) (a : list string) (e : envp_t)
    : request :=
  match r with
  | Execve _ _ _ => Execve p a e
  | Execvpe _ _ _ => Execvpe p a e
  | ExecvP _ s _ _ => ExecvP p s a e
  | PosixSpawn pid _ fa at_ _ _ => PosixSpawn pid p fa at_ a e
  | PosixSpawnp pid _ fa at_ _ _ => PosixSpawnp pid p fa at_ a e
  end.

(** What an original implementation does with a call: it returns a value
    (and, for the spawn shapes, may have stored a child identifier through
    the output pointer), or, for an exec shape that succeeds, the process
    image is replaced and nothing returns. *)
Inductive delegate_result : Type :=
| Returned (value : Z) (child : option Z)
| ImageReplaced.

Definition implementation : Type := request -> delegate_result.

(** Modelled from the spec: the Session record of [libexec_a/Session.h], which
    is not part of the driver: reporting destination, supervisor executable
    path, this library's own path, verbosity flag; [persisted] is the block
    of [KEY=VALUE] strings that [persist] leaves in the static buffer. *)
Record Session : Type := mkSession {
  destination : option string;
  reporter : option string;
  library : option string;
  verbose : bool;
  persisted : list string
}.

(** [ear::Session SESSION;] the static, default-constructed Session. *)
Definition Session_default : Session :=
  mkSession None None None false [].

(** Everything the library does that can be observed, in order of
    occurrence.  [SessionFrom] and [Invoke] are markers: a Session was
    constructed from the environment; an Executor method was called. *)
Inductive event : Type :=
| SessionFrom (env : list string)
| WriteMessage (name : string)
| Record_ (dest : string) (pid : Z) (name : string)
| Diagnostic (name : string)
| Invoke (r : request)
| Delegate (sym : string) (r : request).

(** The mutable state of the process, as far as the library touches it:
    the statics [LOADED] and [SESSION], the number of bytes of [BUFFER]
    handed out, the live environment of the process, and the events so far. *)
Record World : Type := mkWorld {
  LOADED : bool;
  SESSION : Session;
  arena : Z;
  environ : list string;
  trace : list event
}.

(** What the process is given from outside: its identity, which reporting
    destinations accept a write, and what the dynamic linker finds below the
    library for a name ([dlsym(RTLD_NEXT, name)]). *)
Record Host : Type := mkHost {
  host_pid : Z;
  writable : string -> bool;
  dlsym_next : string -> option implementation
}.

(** Parameters of the model: what the collaborators' own sources fix and the
    driver does not show: the reserved environment keys, the canonical value of the
    verbosity entry, the marker of a supervisor-mode command line, how the
    reporting context and the requested target are spelled on it, and the
    size of a pointer. *)
Record Conventions : Type := mkConventions {
  KEY_DESTINATION : string;
  KEY_REPORTER : string;
  KEY_LIBRARY : string;
  KEY_VERBOSE : string;
  VERBOSE_ON : string;
  MARKER : string;
  reporting_context : Session -> list string;
  target_words : request -> list string;
  POINTER_SIZE : Z
}.

(** [constexpr size_t BUFFER_SIZE = 16 * 1024;] *)
Definition BUFFER_SIZE : Z := 16 * 1024.

(** The outcome of running a piece of the library: it finished with a value,
    the process was aborted (a fatal error), or the behaviour is undefined. *)
Inductive Res (A : Type) : Type :=
| Ok (a : A) (w : World)
| Fatal (w : World)
| Undefined.
Arguments Ok {A} a w.
Arguments Fatal {A} w.
Arguments Undefined {A}.

Definition M (A : Type) : Type := World -> Res A.

Definition ret {A} (a : A) : M A := fun w => Ok a w.

Definition bind {A B} (m : M A) (k : A -> M B) : M B :=
  fun w =>
    match m w with
    | Ok a w' => k a w'
    | Fatal w' => Fatal w'
    | Undefined => Undefined
    end.

Notation "'do' x <- m ; k" := (bind m (fun x => k))
  (at level 10, x pattern, m at level 100, k at level 200,
   format "'[v' 'do'  x  <-  m ; '/' k ']'").

Definition fatal {A} : M A := fun w => Fatal w.

(** A step whose behaviour is undefined when [o] is [None]. *)
Definition defined {A} (o : option A) : M A :=
  fun w => match o with Some a => Ok a w | None => Undefined end.

Definition emit (e : event) : M unit :=
  fun w => Ok tt (mkWorld (LOADED w) (SESSION w) (arena w) (environ w) (trace w ++ [e])).

Definition get_SESSION : M Session := fun w => Ok (SESSION w) w.

Definition set_SESSION (s : Session) : M unit :=
  fun w => Ok tt (mkWorld (LOADED w) s (arena w) (environ w) (trace w)).

(** [LOADED.exchange(b)]: store [b], return the previous value. *)
Definition LOADED_exchange (b : bool) : M bool :=
  fun w => Ok (LOADED w) (mkWorld b (SESSION w) (arena w) (environ w) (trace w)).

(** The world a finished or aborted run ends in. *)
Definition world_of {A} (r : Res A) : option World :=
  match r with
  | Ok _ w | Fatal w => Some w
  | Undefined => None
  end.


(** ** Strings of the form KEY=VALUE *)

(** The rest of [s] after the prefix [p], if [s] starts with [p]. *)
Fixpoint strip_prefix (p s : string) : option string :=
  match p, s with
  | EmptyString, _ => Some s
  | String a p', String b s' => if Ascii.eqb a b then strip_prefix p' s' else None
  | String _ _, EmptyString => None
  end.

(** The key of an entry: its characters before the first [=]. *)
Fixpoint key_of (entry : string) : string :=
  match entry with
  | EmptyString => EmptyString
  | String c rest => if Ascii.eqb c "="%char then EmptyString else String c (key_of rest)
  end.

Definition entry (key value : string) : string :=
  String.append key (String "="%char value).

(** Bytes a string takes in memory, with its terminating NUL. *)
Definition string_size (s : string) : Z := Z.of_nat (String.length s) + 1.

(** Sample surroundings, for evaluating the definitions on concrete calls. *)
Definition sample_conventions : Conventions :=
  mkConventions "INTERCEPT_REPORT_DESTINATION" "INTERCEPT_REPORT_COMMAND"
    "INTERCEPT_SESSION_LIBRARY" "INTERCEPT_VERBOSE" "true" "--session"
    (fun s => match destination s with Some d => [d] | None => [] end)
    (fun r => [symbol r; target_of r])
    8.

(** A host in which every original implementation is found and fails with
    [-1], every destination accepts a write, and the process is number 42. *)
Definition sample_host : Host :=
  mkHost 42 (fun _ => true) (fun _ => Some (fun _ => Returned (-1) None)).

Definition enabled_environ : list string :=
  [ "HOME=/root";
    "INTERCEPT_REPORT_DESTINATION=/tmp/sink";
    "INTERCEPT_REPORT_COMMAND=/bin/true";
    "INTERCEPT_SESSION_LIBRARY=/usr/lib/libexec.so" ].

(** The process before the library is loaded. *)
Definition initial_world (env : list string) : World :=
  mkWorld false Session_default 0 env [].

(** ** Reading a trace *)

(** The Executor calls in a trace, in order. *)
Definition calls_of (t : list event) : list request :=
  omap (fun e => match e with Invoke r => Some r | _ => None end) t.

(** The calls of original implementations in a trace, in order. *)
Definition delegated (t : list event) : list request :=
  omap (fun e => match e with Delegate _ r => Some r | _ => None end) t.

(** The names of the records that reached a destination, in order. *)
Definition records (t : list event) : list string :=
  omap (fun e => match e with Record_ _ _ name => Some name | _ => None end) t.

(** How often a Session was constructed from the environment. *)
Definition constructions (t : list event) : nat :=
  length (omap (fun e => match e with SessionFrom env => Some env | _ => None end) t).

(** How often a report named [name] was requested from the Session. *)
Definition reports (name : string) (t : list event) : nat :=
  length (omap (fun e => match e with
                         | WriteMessage n => if String.eqb n name then Some n else None
                         | _ => None
                         end) t).

(** The world with more events on its trace. *)
Definition add_events (w : World) (es : list event) : World :=
  mkWorld (LOADED w) (SESSION w) (arena w) (environ w) (trace w ++ es).

(** The block of statements that [execl], [execlp] and [execle] share word
    for word, from the first [va_start] to [va_copy_n], as one function of
    the string stored in slot 0 and of the variadic arguments: the array
    built on the stack, and the arguments the second traversal left unread. *)
Definition stack_vector (first : string) (va : va_list) : option (list cval * va_list) :=
  match va_length va with
  | Some (argc, _) =>
      match array_store (replicate (Z.to_nat (size_t (argc + 2))) Undef) 0 (Str first) with
      | Some argv => va_copy_n va argv 1 argc
      | None => None
      end
  | None => None
  end.

(** The argument that follows the first null pointer of a variadic list. *)
Fixpoint after_sentinel (va : va_list) : option cval :=
  match va with
  | [] => None
  | Null :: rest => head rest
  | _ :: rest => after_sentinel rest
  end.

Section Engine.

Context (cv : Conventions) (host : Host).

(** ** Environment Snapshot *)

(** Modelled from the spec: [ear::environment::current()] of
    [libexec_a/Environment.h], which is not part of the driver: a borrowed
    view of the live process environment; no copy, no allocation. *)
Definition environment_current : M (list string) :=
  fun w => Ok (environ w) w.

(** Modelled from the spec: [lookup(key)] of [libexec_a/Environment.h]:
    linear scan, returns value or absence. *)
Fixpoint environment_lookup (key : string) (env : list string) : option string :=
  match env with
  | [] => None
  | e :: rest =>
      match strip_prefix (entry key EmptyString) e with
      | Some value => Some value
      | None => environment_lookup key rest
      end
  end.

(** Modelled from the spec: the merge of a base environment with overrides,
    of [libexec_a/Environment.h]: last writer wins per key, unmodified keys
    keep their relative order, new keys are appended in the order given. *)
Definition override (base : list string) (o : string) : list string :=
  if existsb (fun e => String.eqb (key_of e) (key_of o)) base
  then map (fun e => if String.eqb (key_of e) (key_of o) then o else e) base
  else base ++ [o].

(** Modelled from the spec: the merged environment, the overrides applied to
    the base one after the other. *)
Definition merged (base overrides : list string) : list string :=
  fold_left override overrides base.

(** ** Arena *)

(** [ear::Storage storage(BUFFER, BUFFER + BUFFER_SIZE);] a storage over the
    whole static buffer, nothing handed out yet. *)
Definition Storage_init : M unit :=
  fun w => Ok tt (mkWorld (LOADED w) (SESSION w) 0 (environ w) (trace w)).

(** Modelled from the spec: [allocate(n)] of [libexec_a/Storage.h], which is
    not part of the driver: bump allocation from the fixed buffer; nothing
    is ever given back; overflow is fatal.  The arena is process-wide: the
    offset reached is kept in the world. *)
Definition Storage_allocate (n : Z) : M unit :=
  fun w =>
    if arena w + n <=? BUFFER_SIZE
    then Ok tt (mkWorld (LOADED w) (SESSION w) (arena w + n) (environ w) (trace w))
    else Fatal w.

(** Modelled from the spec: [copy_string(s)] of [libexec_a/Storage.h]. *)
Definition Storage_copy_string (s : string) : M unit :=
  Storage_allocate (string_size s).

(** Modelled from the spec: [allocate_array(count)] of [libexec_a/Storage.h]. *)
Definition Storage_allocate_array (count : nat) : M unit :=
  Storage_allocate (Z.of_nat count * POINTER_SIZE cv).

(** Modelled from the spec: [copy_string] for each string of a list, in
    order. *)
Fixpoint Storage_copy_strings (l : list string) : M unit :=
  match l with
  | [] => ret tt
  | s :: rest => do _ <- Storage_copy_string s; Storage_copy_strings rest
  end.

(** Modelled from the spec: [merge(base, overrides, arena)] of
    [libexec_a/Environment.h]: a new null-terminated array in the arena. *)
Definition environment_merge (base overrides : list string) : M (list string) :=
  let result := merged base overrides in
  do _ <- Storage_allocate_array (S (length result));
  ret result.

(** ** Session *)

(** Modelled from the spec: [Session::from(environment)] of
    [libexec_a/Session.h]: parses the reserved configuration keys. *)
Definition Session_from (env : list string) : Session :=
  mkSession
    (environment_lookup (KEY_DESTINATION cv) env)
    (environment_lookup (KEY_REPORTER cv) env)
    (environment_lookup (KEY_LIBRARY cv) env)
    (match environment_lookup (KEY_VERBOSE cv) env with Some _ => true | None => false end)
    [].

(** Modelled from the spec: a Session with any mandatory field absent is
    disabled.  The verbosity flag is a flag: its absence means not verbose. *)
Definition Session_enabled (s : Session) : bool :=
  match destination s, reporter s, library s with
  | Some _, Some _, Some _ => true
  | _, _, _ => false
  end.

(** Modelled from the spec: the configuration of an enabled Session in
    [KEY=VALUE] form, with canonical values; a disabled Session has none. *)
Definition Session_entries (s : Session) : list string :=
  match destination s, reporter s, library s with
  | Some d, Some r, Some l =>
      [entry (KEY_DESTINATION cv) d; entry (KEY_REPORTER cv) r; entry (KEY_LIBRARY cv) l]
      ++ (if verbose s then [entry (KEY_VERBOSE cv) (VERBOSE_ON cv)] else [])
  | _, _, _ => []
  end.

(** Modelled from the spec: [Session::persist(storage)] of
    [libexec_a/Session.h]: re-serializes the configuration into [KEY=VALUE]
    form in the arena. *)
Definition Session_persist : M unit :=
  do s <- get_SESSION;
  do _ <- Storage_copy_strings (Session_entries s);
  set_SESSION (mkSession (destination s) (reporter s) (library s) (verbose s)
                 (Session_entries s)).

(** Modelled from the spec: [Session::write_message(event_name)] of
    [libexec_a/Session.h]: appends a record (process identity, event name)
    to the configured destination; a disabled Session reports nothing; a
    write failure is logged only if verbosity is enabled, and never aborts. *)
Definition Session_write_message (name : string) : M unit :=
  do _ <- emit (WriteMessage name);
  do s <- get_SESSION;
  match (if Session_enabled s then destination s else None) with
  | Some d =>
      if writable host d then emit (Record_ d (host_pid host) name)
      else if verbose s then emit (Diagnostic name)
      else ret tt
  | None => ret tt
  end.

(** ** Symbol Resolver *)

(** [void *dynamic_linker(char const *const name)]:
    [return dlsym(RTLD_NEXT, name);] *)
Definition dynamic_linker (name : string) : option implementation :=
  dlsym_next host name.

(** Modelled from the spec: [Resolver::resolve] of [libexec_a/Resolver.h],
    built on the loader lookup it was constructed with
    ([ear::Resolver RESOLVER(&dynamic_linker);]); failure is fatal. *)
Definition Resolver_resolve (name : string) : M implementation :=
  match dynamic_linker name with
  | Some fp => ret fp
  | None => fatal
  end.

(** ** Executor *)

(** Modelled from the spec: the fixed prefix of a rewritten command line:
    supervisor path, marker, reporting context, originally requested target. *)
Definition fixed_prefix (s : Session) (supervisor : string) (r : request) : list string :=
  supervisor :: MARKER cv :: reporting_context cv s ++ target_words cv r.

(** Modelled from the spec: the call of the resolved original
    implementation; whatever it returns is returned. *)
Definition call_through (fp : implementation) (r : request) : M delegate_result :=
  do _ <- emit (Delegate (symbol r) r);
  ret (fp r).

(** Modelled from the spec: the five methods of [ear::Executor] of
    [libexec_a/Executor.h], which is not part of the driver, as one function
    of the method called.  (Step 1 of the algorithm, the report, is what the
    driver does itself before it calls the Executor.)  With a disabled
    Session, or when the target already is the supervisor, the original
    implementation is called with the caller's arguments; otherwise with
    the supervisor as target, the prefixed argument vector, and the
    environment merged with the persisted configuration (a null [envp] has
    no entries to merge). *)
Definition Executor_run (r : request) : M delegate_result :=
  do _ <- emit (Invoke r);
  do s <- get_SESSION;
  do fp <- Resolver_resolve (symbol r);
  match (if Session_enabled s then reporter s else None) with
  | Some supervisor =>
      if String.eqb (target_of r) supervisor then call_through fp r
      else
        let argv := fixed_prefix s supervisor r ++ argv_of r in
        do _ <- Storage_allocate_array (S (length argv));
        do envp <- environment_merge (entries_of (envp_of r)) (persisted s);
        call_through fp (retarget r supervisor argv envp)
  | None => call_through fp r
  end.

(** The five methods by their names in the driver; [ear::Executor(SESSION,
    RESOLVER)] is the Executor over the two statics. *)
Definition Executor_execve (path : string) (argv : list string) (envp : envp_t) :=
  Executor_run (Execve path argv envp).
Definition Executor_execvpe (file : string) (argv : list string) (envp : envp_t) :=
  Executor_run (Execvpe file argv envp).
Definition Executor_execvP (file search_path : string) (argv : list string)
    (envp : envp_t) :=
  Executor_run (ExecvP file search_path argv envp).
Definition Executor_posix_spawn (pid : handle) (path : string)
    (file_actions attrp : handle) (argv : list string) (envp : envp_t) :=
  Executor_run (PosixSpawn pid path file_actions attrp argv envp).
Definition Executor_posix_spawnp (pid : handle) (file : string)
    (file_actions attrp : handle) (argv : list string) (envp : envp_t) :=
  Executor_run (PosixSpawnp pid file file_actions attrp argv envp).

(** ** The driver: lib.cc *)

(** [extern "C" void on_load() __attribute__((constructor));]

    {[ if (LOADED.exchange(true)) return;
       const auto environment = ear::environment::current();
       SESSION = ear::Session::from(environment);
       ear::Storage storage(BUFFER, BUFFER + BUFFER_SIZE);
       SESSION.persist(storage);
       SESSION.write_message("on_load"); ]} *)
Definition on_load : M unit :=
  do was_loaded <- LOADED_exchange true;
  if (was_loaded : bool) then ret tt
  else
    do environment <- environment_current;
    do _ <- emit (SessionFrom environment);
    do _ <- set_SESSION (Session_from environment);
    do _ <- Storage_init;
    do _ <- Session_persist;
    Session_write_message "on_load".

(** [extern "C" void on_unload() __attribute__((destructor));]

    {[ if (not LOADED.exchange(false)) return;
       SESSION.write_message("on_unload"); ]} *)
Definition on_unload : M unit :=
  do was_loaded <- LOADED_exchange false;
  if negb was_loaded then ret tt
  else Session_write_message "on_unload".

(** [int execve(const char *path, char *const argv[], char *const envp[])] *)
Definition execve (path : string) (argv : list string) (envp : envp_t)
    : M delegate_result :=
  do _ <- Session_write_message "execve";
  Executor_execve path argv envp.

(** [int execv(const char *path, char *const argv[])] *)
Definition execv (path : string) (argv : list string) : M delegate_result :=
  do _ <- Session_write_message "execv";
  do envp <- environment_current;
  Executor_execve path argv envp.

(** [int execvpe(const char *file, char *const argv[], char *const envp[])] *)
Definition execvpe (file : string) (argv : list string) (envp : envp_t)
    : M delegate_result :=
  do _ <- Session_write_message "execvpe";
  Executor_execvpe file argv envp.

(** [int execvp(const char *file, char *const argv[])] *)
Definition execvp (file : string) (argv : list string) : M delegate_result :=
  do _ <- Session_write_message "execvp";
  do envp <- environment_current;
  Executor_execvpe file argv envp.

(** [int execvP(const char *file, const char *search_path, char *const argv[])] *)
Definition execvP (file search_path : string) (argv : list string) : M delegate_result :=
  do _ <- Session_write_message "execvP";
  do envp <- environment_current;
  Executor_execvP file search_path argv envp.

(** [int exect(const char *path, char *const argv[], char *const envp[])] *)
Definition exect (path : string) (argv : list string) (envp : envp_t)
    : M delegate_result :=
  do _ <- Session_write_message "exect";
  Executor_execve path argv envp.

(** [int execl(const char *path, const char *arg, ...)]

    {[ va_list ap;
       va_start(ap, arg);
       const size_t argc = va_length(ap);
       va_end(ap);
       va_start(ap, arg);
       char *argv[argc + 2];
       argv[0] = const_cast<char*>(path);
       va_copy_n(ap, &argv[1], argc);
       va_end(ap);
       auto envp = const_cast<char *const*>(ear::environment::current());
       return ear::Executor(SESSION, RESOLVER).execve(path, argv, envp); ]}

    [va] holds the arguments after the last named one, [arg]; each
    [va_start(ap, arg)] starts a traversal at the first of them.  The
    Executor reads the array as a null-terminated vector. *)
Definition execl (path arg : string) (va : va_list) : M delegate_result :=
  do _ <- Session_write_message "execl";
  do (argc, _) <- defined (va_length va);
  let argv := replicate (Z.to_nat (size_t (argc + 2))) Undef in
  do argv <- defined (array_store argv 0 (Str path));
  do (argv, _) <- defined (va_copy_n va argv 1 argc);
  do envp <- environment_current;
  do argv <- defined (c_strings argv);
  Executor_execve path argv envp.

(** [int execlp(const char *file, const char *arg, ...)]: as [execl], with
    [argv[0] = const_cast<char*>(file);] and the call
    [ear::Executor(SESSION, RESOLVER).execvpe(file, argv, envp)]. *)
Definition execlp (file arg : string) (va : va_list) : M delegate_result :=
  do _ <- Session_write_message "execlp";
  do (argc, _) <- defined (va_length va);
  let argv := replicate (Z.to_nat (size_t (argc + 2))) Undef in
  do argv <- defined (array_store argv 0 (Str file));
  do (argv, _) <- defined (va_copy_n va argv 1 argc);
  do envp <- environment_current;
  do argv <- defined (c_strings argv);
  Executor_execvpe file argv envp.

(** [int execle(const char *path, const char *arg, ...)]: as [execl] up to
    [va_copy_n], then

    {[ char **envp = va_arg<char**>(ap);
       va_end(ap);
       return ear::Executor(SESSION, RESOLVER).execve(path, argv, envp); ]} *)
Definition execle (path arg : string) (va : va_list) : M delegate_result :=
  do _ <- Session_write_message "execle";
  do (argc, _) <- defined (va_length va);
  let argv := replicate (Z.to_nat (size_t (argc + 2))) Undef in
  do argv <- defined (array_store argv 0 (Str path));
  do (argv, ap) <- defined (va_copy_n va argv 1 argc);
  do (envp, _) <- defined (va_arg_vec ap);
  do argv <- defined (c_strings argv);
  Executor_execve path argv envp.

(** [int posix_spawn(pid_t *pid, const char *path,
                     const posix_spawn_file_actions_t *file_actions,
                     const posix_spawnattr_t *attrp,
                     char *const argv[], char *const envp[])] *)
Definition posix_spawn (pid : handle) (path : string) (file_actions attrp : handle)
    (argv : list string) (envp : envp_t) : M delegate_result :=
  do _ <- Session_write_message "posix_spawn";
  Executor_posix_spawn pid path file_actions attrp argv envp.

(** [int posix_spawnp(pid_t *pid, const char *file, ...)], same parameters. *)
Definition posix_spawnp (pid : handle) (file : string) (file_actions attrp : handle)
    (argv : list string) (envp : envp_t) : M delegate_result :=
  do _ <- Session_write_message "posix_spawnp";
  Executor_posix_spawnp pid file file_actions attrp argv envp.

(** ** A call of the overridden surface, as data *)

(** One constructor per entry point of lib.cc, with the arguments the caller
    passes.  An [envp] may be the null pointer. *)
Inductive call : Type :=
| Call_execve (path : string) (argv : list string) (envp : envp_t)
| Call_execv (path : string) (argv : list string)
| Call_execvpe (file : string) (argv : list string) (envp : envp_t)
| Call_execvp (file : string) (argv : list string)
| Call_execvP (file search_path : string) (argv : list string)
| Call_exect (path : string) (argv : list string) (envp : envp_t)
| Call_execl (path arg : string) (va : va_list)
| Call_execlp (file arg : string) (va : va_list)
| Call_execle (path arg : string) (va : va_list)
| Call_posix_spawn (pid : handle) (path : string) (file_actions attrp : handle)
    (argv : list string) (envp : envp_t)
| Call_posix_spawnp (pid : handle) (file : string) (file_actions attrp : handle)
    (argv : list string) (envp : envp_t).

Definition intercept (c : call) : M delegate_result :=
  match c with
  | Call_execve p a e => execve p a e
  | Call_execv p a => execv p a
  | Call_execvpe f a e => execvpe f a e
  | Call_execvp f a => execvp f a
  | Call_execvP f s a => execvP f s a
  | Call_exect p a e => exect p a e
  | Call_execl p x va => execl p x va
  | Call_execlp f x va => execlp f x va
  | Call_execle p x va => execle p x va
  | Call_posix_spawn pid p fa at_ a e => posix_spawn pid p fa at_ a e
  | Call_posix_spawnp pid f fa at_ a e => posix_spawnp pid f fa at_ a e
  end.

(** The name of the operation the caller invoked. *)
Definition operation (c : call) : string :=
  match c with
  | Call_execve _ _ _ => "execve"
  | Call_execv _ _ => "execv"
  | Call_execvpe _ _ _ => "execvpe"
  | Call_execvp _ _ => "execvp"
  | Call_execvP _ _ _ => "execvP"
  | Call_exect _ _ _ => "exect"
  | Call_execl _ _ _ => "execl"
  | Call_execlp _ _ _ => "execlp"
  | Call_execle _ _ _ => "execle"
  | Call_posix_spawn _ _ _ _ _ _ => "posix_spawn"
  | Call_posix_spawnp _ _ _ _ _ _ => "posix_spawnp"
  end.

(** ** Summaries used to state the properties *)

(** The events one call of [Session_write_message] adds to the trace. *)
Definition reported (s : Session) (name : string) : list event :=
  WriteMessage name ::
  match (if Session_enabled s then destination s else None) with
  | Some d =>
      if writable host d then [Record_ d (host_pid host) name]
      else if verbose s then [Diagnostic name]
      else []
  | None => []
  end.

(** The Executor call an entry point makes, as a function of the caller's
    arguments and of the live environment: what each entry point does
    between its report and its call of the Executor.  [None] where the
    marshalling of a variadic call is undefined. *)
Definition handed (env : list string) (c : call) : option request :=
  match c with
  | Call_execve p a e => Some (Execve p a e)
  | Call_execv p a => Some (Execve p a env)
  | Call_execvpe f a e => Some (Execvpe f a e)
  | Call_execvp f a => Some (Execvpe f a env)
  | Call_execvP f sp a => Some (ExecvP f sp a env)
  | Call_exect p a e => Some (Execve p a e)
  | Call_execl p _ va =>
      match stack_vector p va with
      | Some (a, _) =>
          match c_strings a with
          | Some argv => Some (Execve p argv env)
          | None => None
          end
      | None => None
      end
  | Call_execlp f _ va =>
      match stack_vector f va with
      | Some (a, _) =>
          match c_strings a with
          | Some argv => Some (Execvpe f argv env)
          | None => None
          end
      | None => None
      end
  | Call_execle p _ va =>
      match stack_vector p va with
      | Some (a, ap) =>
          match va_arg_vec ap, c_strings a with
          | Some (e, _), Some argv => Some (Execve p argv e)
          | _, _ => None
          end
      | None => None
      end
  | Call_posix_spawn pid p fa at_ a e => Some (PosixSpawn pid p fa at_ a e)
  | Call_posix_spawnp pid f fa at_ a e => Some (PosixSpawnp pid f fa at_ a e)
  end.

(** [variadic_call c first l rest]: [c] is a call of [execl], [execlp] or
    [execle] with first parameter [first], whose variadic arguments are the
    strings [l], the null sentinel, and then [rest]; for [execle], [rest]
    starts with the environment vector. *)
Inductive variadic_call : call -> string -> list string -> va_list -> Prop :=
| variadic_execl (path arg : string) (l : list string) (rest : va_list) :
    variadic_call (Call_execl path arg (map Str l ++ Null :: rest)) path l rest
| variadic_execlp (file arg : string) (l : list string) (rest : va_list) :
    variadic_call (Call_execlp file arg (map Str l ++ Null :: rest)) file l rest
| variadic_execle (path arg : string) (l envp : list string) (rest : va_list) :
    variadic_call (Call_execle path arg (map Str l ++ Null :: Vec envp :: rest))
      path l (Vec envp :: rest).

(** The variadic arguments of a call, and the argument vector its caller
    means: for the vector-taking entry points the [argv] parameter, for the
    variadic ones [arg] followed by the strings before the sentinel. *)
Definition trailing (c : call) : va_list :=
  match c with
  | Call_execl _ _ va | Call_execlp _ _ va | Call_execle _ _ va => va
  | _ => []
  end.

Fixpoint strings_before_sentinel (va : va_list) : list string :=
  match va with
  | Str s :: rest => s :: strings_before_sentinel rest
  | _ => []
  end.

Definition caller_argv (c : call) : list string :=
  match c with
  | Call_execve _ a _ | Call_execv _ a | Call_execvpe _ a _ | Call_execvp _ a
  | Call_execvP _ _ a | Call_exect _ a _
  | Call_posix_spawn _ _ _ _ a _ | Call_posix_spawnp _ _ _ _ a _ => a
  | Call_execl _ arg va | Call_execlp _ arg va | Call_execle _ arg va =>
      arg :: strings_before_sentinel va
  end.

(** The target the caller names. *)
Definition caller_target (c : call) : string :=
  match c with
  | Call_execve p _ _ | Call_execv p _ | Call_execvpe p _ _ | Call_execvp p _
  | Call_execvP p _ _ | Call_exect p _ _
  | Call_execl p _ _ | Call_execlp p _ _ | Call_execle p _ _
  | Call_posix_spawn _ p _ _ _ _ | Call_posix_spawnp _ p _ _ _ _ => p
  end.

(** The environment vector the caller passes, for the entry points that
    take one: a parameter, or for [execle] the argument behind the sentinel. *)
Definition caller_envp (c : call) : option envp_t :=
  match c with
  | Call_execve _ _ e | Call_execvpe _ _ e | Call_exect _ _ e
  | Call_posix_spawn _ _ _ _ _ e | Call_posix_spawnp _ _ _ _ _ e => Some e
  | Call_execle _ _ va =>
      match after_sentinel va with
      | Some (Vec e) => Some (Envp e)
      | Some Null => Some NullEnvp
      | _ => None
      end
  | Call_execv _ _ | Call_execvp _ _ | Call_execvP _ _ _
  | Call_execl _ _ _ | Call_execlp _ _ _ => None
  end.

(** Whether an entry point has an environment parameter. *)
Definition takes_environment (c : call) : bool :=
  match c with
  | Call_execve _ _ _ | Call_execvpe _ _ _ | Call_exect _ _ _ | Call_execle _ _ _
  | Call_posix_spawn _ _ _ _ _ _ | Call_posix_spawnp _ _ _ _ _ _ => true
  | Call_execv _ _ | Call_execvp _ _ | Call_execvP _ _ _
  | Call_execl _ _ _ | Call_execlp _ _ _ => false
  end.

(** The hooks, as data, and runs of several of them. *)
Inductive hook : Type := Load | Unload.

Definition run_hook (h : hook) : M unit :=
  match h with
  | Load => on_load
  | Unload => on_unload
  end.

Fixpoint run_hooks (hs : list hook) : M unit :=
  match hs with
  | [] => ret tt
  | h :: rest => do _ <- run_hook h; run_hooks rest
  end.

(** Bytes [persist] needs for the configuration found in an environment. *)
Definition persist_size (env : list string) : Z :=
  fold_right (fun s acc => string_size s + acc) 0 (Session_entries (Session_from env)).

(** Bytes the Executor takes from the arena to rewrite a call. *)
Definition rewrite_cost (s : Session) (supervisor : string) (r : request) : Z :=
  Z.of_nat (S (length (fixed_prefix s supervisor r ++ argv_of r))) * POINTER_SIZE cv
  + Z.of_nat (S (length (merged (entries_of (envp_of r)) (persisted s))))
    * POINTER_SIZE cv.

(** Modelled from the spec: the call the Executor delegates for the call [r]
    it is given: [r] itself with a disabled Session or when the target is the
    supervisor, otherwise [r] aimed at the supervisor with the rewritten
    vectors. *)
Definition delegated_request (s : Session) (r : request) : request :=
  match (if Session_enabled s then reporter s else None) with
  | Some supervisor =>
      if String.eqb (target_of r) supervisor then r
      else retarget r supervisor
             (fixed_prefix s supervisor r ++ argv_of r)
             (merged (entries_of (envp_of r)) (persisted s))
  | None => r
  end.

(** Modelled from the spec: whether the arena has room for what the Executor
    builds for [r]: nothing when it passes the call through, otherwise the
    argument array and then the environment array. *)
Definition arena_suffices (w : World) (r : request) : bool :=
  match (if Session_enabled (SESSION w) then reporter (SESSION w) else None) with
  | Some supervisor =>
      if String.eqb (target_of r) supervisor then true
      else
        let argv_bytes :=
          Z.of_nat (S (length (fixed_prefix (SESSION w) supervisor r ++ argv_of r)))
          * POINTER_SIZE cv in
        let envp_bytes :=
          Z.of_nat (S (length (merged (entries_of (envp_of r)) (persisted (SESSION w)))))
          * POINTER_SIZE cv in
        (arena w + argv_bytes <=? BUFFER_SIZE)
        && (arena w + argv_bytes + envp_bytes <=? BUFFER_SIZE)
  | None => true
  end.

(** The same call with another first variadic-anchor argument [arg]. *)
Definition replace_arg (c : call) (arg' : string) : call :=
  match c with
  | Call_execl p _ va => Call_execl p arg' va
  | Call_execlp f _ va => Call_execlp f arg' va
  | Call_execle p _ va => Call_execle p arg' va
  | _ => c
  end.

Definition is_variadic (c : call) : bool :=
  match c with
  | Call_execl _ _ _ | Call_execlp _ _ _ | Call_execle _ _ _ => true
  | _ => false
  end.






End Engine.

(** ** Sample processes and calls *)

(** The process after the library was loaded into it with the environment
    [env], in the sample surroundings. *)
Definition loaded_world (env : list string) : World :=
  match on_load sample_conventions sample_host (initial_world env) with
  | Ok _ w => w
  | _ => initial_world env
  end.

(** An environment without the reserved keys: the Session stays disabled. *)
Definition plain_environ : list string := ["HOME=/root"].

(** [execl("/bin/ls", "ls", "-la", nullptr)] *)
Definition sample_execl : call :=
  Call_execl "/bin/ls" "ls" [Str "-la"; Null].

(** [execl("/bin/ls", "ls", nullptr)]: no argument before the sentinel. *)
Definition sample_execl_bare : call :=
  Call_execl "/bin/ls" "ls" [Null].

(** [execle("/bin/ls", "ls", "-la", nullptr, envp)] with [envp = {"A=1"}]. *)
Definition sample_execle : call :=
  Call_execle "/bin/ls" "ls" [Str "-la"; Null; Vec ["A=1"]].

(** [execvp("ls", argv)] with [argv = {"ls", "-la"}]. *)
Definition sample_execvp : call :=
  Call_execvp "ls" ["ls"; "-la"].

(** [exect("/bin/ls", argv, envp)] with [argv = {"ls"}], [envp = {"A=1"}]. *)
Definition sample_exect : call :=
  Call_exect "/bin/ls" ["ls"] ["A=1"].

(** [posix_spawn(pid, "/bin/ls", nullptr, nullptr, argv, envp)] with [pid] at
    address 1000, [argv = {"ls"}], [envp = {"A=1"}]. *)
Definition sample_spawn : call :=
  Call_posix_spawn 1000 "/bin/ls" 0 0 ["ls"] ["A=1"].

(** A host like [sample_host] in which the original spawn operations succeed:
    they return 0 and store the child identifier 4242. *)
Definition spawning_host : Host :=
  mkHost 42 (fun _ => true)
    (fun _ => Some (fun r => match out_pointer r with
                             | Some _ => Returned 0 (Some 4242)
                             | None => Returned (-1) None
                             end)).

(** A host like [sample_host] in which the loader finds no original
    implementation at all. *)
Definition unresolving_host : Host :=
  mkHost 42 (fun _ => true) (fun _ => None).

(** ** Further summaries *)

(** What [va_arg] at type [char*] can read: a null pointer or a string. *)
Definition is_char_pointer (v : cval) : bool :=
  match v with
  | Null | Str _ => true
  | Vec _ | Undef => false
  end.

(** [SIZE_MAX], the largest [size_t]. *)
Definition SIZE_MAX : Z := 2 ^ SIZE_WIDTH - 1.

(** The guard [LOADED] after a run of hooks: what the last hook stored. *)
Definition guard_after (loaded : bool) (hs : list hook) : bool :=
  fold_left (fun _ h => match h with Load => true | Unload => false end) hs loaded.

(** The loads of a run of hooks that find the library not loaded. *)
Fixpoint load_edges (loaded : bool) (hs : list hook) : nat :=
  match hs with
  | [] => O
  | Load :: rest => ((if loaded then 0 else 1) + load_edges true rest)%nat
  | Unload :: rest => load_edges false rest
  end.

(** The unloads of a run of hooks that find the library loaded. *)
Fixpoint unload_edges (loaded : bool) (hs : list hook) : nat :=
  match hs with
  | [] => O
  | Load :: rest => unload_edges true rest
  | Unload :: rest => ((if loaded then 1 else 0) + unload_edges false rest)%nat
  end.

(** The world as an entry point can see it: the Session, the arena and the
    environment, with the guard cleared and no event yet. *)
Definition blank (w : World) : World :=
  mkWorld false (SESSION w) (arena w) (environ w) [].

(** The outcome of a run from [blank w], put back behind [w]: the guard of
    [w], the events of [w] followed by those of the run. *)
Definition graft {A} (w : World) (r : Res A) : Res A :=
  match r with
  | Ok a w0 =>
      Ok a (mkWorld (LOADED w) (SESSION w0) (arena w0) (environ w0) (trace w ++ trace w0))
  | Fatal w0 =>
      Fatal (mkWorld (LOADED w) (SESSION w0) (arena w0) (environ w0) (trace w ++ trace w0))
  | Undefined => Undefined
  end.

(** A call of a variadic entry point whose variadic arguments are as the
    entry point reads them: strings, the null sentinel and, for [execle], the
    environment pointer behind it, which is a vector or the null pointer. *)
Definition well_formed_variadic (c : call) : Prop :=
  (exists first l rest, variadic_call c first l rest)
  \/ (exists path arg l rest,
        c = Call_execle path arg (map Str l ++ Null :: Null :: rest)).

(** [execle("/bin/ls", "ls", "-la", nullptr, envp)] with a null [envp]. *)
Definition sample_execle_null : call :=
  Call_execle "/bin/ls" "ls" [Str "-la"; Null; Null].

(** Two calls made in the same world have the same outcome but for the name
    in the report: from the report on, the same run [res] follows. *)
Definition same_but_name (cv : Conventions) (host : Host) (c c' : call)
    (w : World) : Prop :=
  exists res : Res delegate_result,
    intercept cv host c w
    = graft (add_events w (reported host (SESSION w) (operation c))) res
    /\ intercept cv host c' w
       = graft (add_events w (reported host (SESSION w) (operation c'))) res.

(** [execl("/bin/ls", "ls", "-la")]: the null sentinel is missing. *)
Definition sample_execl_unterminated : call :=
  Call_execl "/bin/ls" "ls" [Str "-la"].

(** [execle("/bin/ls", "ls", "-la", nullptr)]: no [envp] behind the sentinel. *)
Definition sample_execle_short : call :=
  Call_execle "/bin/ls" "ls" [Str "-la"; Null].

(** Evaluates a closed run and offers the world it ends in. *)
Ltac run_to_world run :=
  let r := eval vm_compute in run in
  match r with
  | Ok _ ?w => exists w
  | Fatal ?w => exists w
  end.

(** * Properties *)

(** ** Arithmetic of [size_t] *)

Lemma size_t_small (z : Z) : 0 <= z < 2 ^ SIZE_WIDTH -> size_t z = z.
Proof. intros H. unfold size_t. apply Z.mod_small. exact H. Qed.

Lemma size_width_pow : 2 ^ SIZE_WIDTH = 18446744073709551616.
Proof. reflexivity. Qed.

(** ** The two traversals *)

(** The first traversal counts the strings before the sentinel and stops
    just behind it. *)
Lemma va_length_loop_strings (l : list string) :
  forall (count : Z) (rest : va_list),
    0 <= count ->
    count + Z.of_nat (length l) < 2 ^ SIZE_WIDTH ->
    va_length_loop count (map Str l ++ Null :: rest)
    = Some (count + Z.of_nat (length l), rest).
Proof.
  induction l as [|s l IH]; intros count rest Hpos Hbound.
  - simpl. f_equal. f_equal. lia.
  - cbn [map app va_length_loop va_arg_str].
    rewrite size_t_small by (cbn [length] in Hbound; lia).
    rewrite IH by (cbn [length] in Hbound; lia).
    f_equal. f_equal. cbn [length]. lia.
Qed.

Lemma va_length_strings (l : list string) (rest : va_list) :
  Z.of_nat (length l) < 2 ^ SIZE_WIDTH ->
  va_length (map Str l ++ Null :: rest) = Some (Z.of_nat (length l), rest).
Proof.
  intros H. unfold va_length.
  rewrite va_length_loop_strings by lia. reflexivity.
Qed.

Lemma array_store_middle (pre post : list cval) (old v : cval) :
  array_store (pre ++ old :: post) (length pre) v = Some (pre ++ v :: post).
Proof.
  unfold array_store. rewrite decide_True.
  - f_equal. replace (length pre) with (length pre + 0)%nat by lia.
    rewrite insert_app_r. reflexivity.
  - rewrite length_app. cbn [length]. lia.
Qed.

(** The second traversal stores the strings and then the sentinel into
    consecutive slots, and stops just behind the sentinel. *)
Lemma va_copy_n_loop_strings (base : nat) (l : list string) :
  forall (idx : Z) (rest : va_list) (pre mid post : list cval),
    0 <= idx ->
    idx + Z.of_nat (length l) < 2 ^ SIZE_WIDTH - 1 ->
    length pre = (base + Z.to_nat idx)%nat ->
    length mid = S (length l) ->
    va_copy_n_loop idx (map Str l ++ Null :: rest) (pre ++ mid ++ post) base
      (idx + Z.of_nat (length l))
    = Some (pre ++ map Str l ++ Null :: post, rest).
Proof.
  induction l as [|s l IH]; intros idx rest pre mid post Hpos Hbound Hpre Hmid.
  - destruct mid as [|m [|? ?]]; try discriminate.
    cbn [map app length va_copy_n_loop va_arg_str].
    replace (idx + Z.of_nat 0) with idx by (cbn; lia).
    rewrite Z.leb_refl. rewrite <- Hpre, array_store_middle.
    rewrite size_t_small by (cbn [length] in Hbound; rewrite size_width_pow in *; lia).
    destruct rest; cbn [va_copy_n_loop];
      (replace (idx + 1 <=? idx) with false by (symmetry; apply Z.leb_gt; lia));
      reflexivity.
  - destruct mid as [|m mid]; try discriminate.
    cbn [map app length va_copy_n_loop va_arg_str].
    replace (idx <=? idx + Z.of_nat (S (length l))) with true
      by (symmetry; apply Z.leb_le; lia).
    rewrite <- Hpre, array_store_middle.
    rewrite size_t_small by (cbn [length] in Hbound; rewrite size_width_pow in *; lia).
    replace (idx + Z.of_nat (S (length l))) with (idx + 1 + Z.of_nat (length l)) by lia.
    replace (pre ++ Str s :: mid ++ post) with ((pre ++ [Str s]) ++ mid ++ post)
      by (rewrite <- app_assoc; reflexivity).
    rewrite (IH (idx + 1) rest (pre ++ [Str s]) mid post).
    + rewrite <- app_assoc. reflexivity.
    + lia.
    + cbn [length] in Hbound. lia.
    + rewrite length_app. cbn [length]. rewrite Hpre.
      rewrite Z2Nat.inj_add by lia. simpl (Z.to_nat 1). lia.
    + cbn [length] in Hmid. lia.
Qed.

(** The shared block on a well-formed variadic list: the array holds the
    first string, the strings before the sentinel, and the sentinel. *)
Lemma stack_vector_strings (first : string) (l : list string) (rest : va_list) :
  Z.of_nat (length l) < 2 ^ SIZE_WIDTH - 2 ->
  stack_vector first (map Str l ++ Null :: rest)
  = Some (Str first :: map Str l ++ [Null], rest).
Proof.
  intros Hbound. unfold stack_vector.
  rewrite va_length_strings by lia.
  rewrite size_t_small by (rewrite size_width_pow in *; lia).
  replace (Z.to_nat (Z.of_nat (length l) + 2)) with (S (S (length l))) by lia.
  rewrite replicate_S.
  change (array_store (Undef :: replicate (S (length l)) Undef) 0 (Str first))
    with (array_store ([] ++ Undef :: replicate (S (length l)) Undef) (length (@nil cval)) (Str first)).
  rewrite array_store_middle. cbn [app]. unfold va_copy_n.
  pose proof (va_copy_n_loop_strings 1 l 0 rest [Str first]
                (replicate (S (length l)) Undef) []) as Hcopy.
  rewrite app_nil_r in Hcopy. cbn [app] in Hcopy.
  rewrite Z.add_0_l in Hcopy. rewrite Hcopy.
  - reflexivity.
  - lia.
  - lia.
  - reflexivity.
  - apply length_replicate.
Qed.

Lemma c_strings_terminated (l : list string) (post : list cval) :
  c_strings (map Str l ++ Null :: post) = Some l.
Proof.
  induction l as [|s l IH]; [reflexivity|].
  cbn [map app c_strings]. rewrite IH. reflexivity.
Qed.

Section Facts.

Context (cv : Conventions) (host : Host).

(** ** The collaborators, step by step *)

Lemma snoc_snoc {A : Type} (t : list A) (a b : A) : (t ++ [a]) ++ [b] = t ++ [a; b].
Proof. rewrite <- app_assoc. reflexivity. Qed.

Lemma write_message_run (name : string) (w : World) :
  Session_write_message host name w
  = Ok tt (add_events w (reported host (SESSION w) name)).
Proof.
  unfold Session_write_message, reported, bind, emit, get_SESSION, ret. cbn.
  destruct (if Session_enabled (SESSION w) then destination (SESSION w) else None) as [d|];
    [destruct (writable host d); [|destruct (verbose (SESSION w))]|];
    unfold add_events; cbn; rewrite <- ?app_assoc; reflexivity.
Qed.

Lemma symbol_retarget (r : request) (p : string) (a e : list string) :
  symbol (retarget r p a e) = symbol r.
Proof. destruct r; reflexivity. Qed.

Lemma out_pointer_retarget (r : request) (p : string) (a e : list string) :
  out_pointer (retarget r p a e) = out_pointer r.
Proof. destruct r; reflexivity. Qed.

(** Every run of the Executor ends in one of two ways: the process is
    aborted before anything was delegated, or one original implementation
    was called, once, and its result is the result of the run.  The statics
    [LOADED] and [SESSION] and the environment are left alone. *)
Lemma Executor_run_cases (r : request) (w : World) :
  (exists w', Executor_run cv host r w = Fatal w'
              /\ trace w' = trace w ++ [Invoke r])
  \/ (exists fp r' w', Executor_run cv host r w = Ok (fp r') w'
              /\ dlsym_next host (symbol r') = Some fp
              /\ symbol r' = symbol r
              /\ out_pointer r' = out_pointer r
              /\ trace w' = trace w ++ [Invoke r; Delegate (symbol r') r']
              /\ LOADED w' = LOADED w /\ SESSION w' = SESSION w
              /\ environ w' = environ w).
Proof.
  unfold Executor_run, bind, emit, get_SESSION, Resolver_resolve, dynamic_linker.
  cbn.
  destruct (dlsym_next host (symbol r)) as [fp|] eqn:Hfp; cbn.
  2:{ left. eexists. split; reflexivity. }
  destruct (if Session_enabled (SESSION w) then reporter (SESSION w) else None)
    as [sup|].
  2:{ right. exists fp, r. eexists. unfold call_through, bind, emit, ret. cbn.
      rewrite snoc_snoc. repeat split; try reflexivity. exact Hfp. }
  destruct (String.eqb (target_of r) sup).
  { right. exists fp, r. eexists. unfold call_through, bind, emit, ret. cbn.
    rewrite snoc_snoc. repeat split; try reflexivity. exact Hfp. }
  unfold Storage_allocate_array, Storage_allocate, environment_merge, bind. cbn.
  match goal with |- context [if ?c then _ else _] => destruct c end; cbn.
  2:{ left. eexists. split; reflexivity. }
  unfold Storage_allocate_array, Storage_allocate, bind. cbn.
  match goal with |- context [if ?c then _ else _] => destruct c end; cbn.
  2:{ left. eexists. split; reflexivity. }
  right. eexists fp, _, _. unfold call_through, bind, emit, ret. cbn.
  repeat split; cbn; rewrite ?symbol_retarget, ?out_pointer_retarget, ?snoc_snoc;
    first [reflexivity | exact Hfp].
Qed.

(** The Executor with a disabled Session: the original implementation is
    called with the very call the Executor was given. *)
Lemma Executor_run_disabled (r : request) (w : World) (fp : implementation) :
  Session_enabled (SESSION w) = false ->
  dlsym_next host (symbol r) = Some fp ->
  Executor_run cv host r w
  = Ok (fp r) (add_events w [Invoke r; Delegate (symbol r) r]).
Proof.
  intros Hoff Hfp.
  unfold Executor_run, bind, emit, get_SESSION, Resolver_resolve, dynamic_linker.
  cbn. rewrite Hfp, Hoff. unfold call_through, bind, emit, ret, add_events. cbn.
  rewrite snoc_snoc. reflexivity.
Qed.

(** The Executor with an enabled Session and a target other than the
    supervisor, when the arena has room: the original implementation is
    called with the supervisor as target and the prefixed vector. *)
Lemma Executor_run_enabled (r : request) (w : World) (fp : implementation)
    (supervisor : string) :
  Session_enabled (SESSION w) = true ->
  reporter (SESSION w) = Some supervisor ->
  target_of r <> supervisor ->
  dlsym_next host (symbol r) = Some fp ->
  0 <= POINTER_SIZE cv ->
  arena w + rewrite_cost cv (SESSION w) supervisor r <= BUFFER_SIZE ->
  let r' := retarget r supervisor
              (fixed_prefix cv (SESSION w) supervisor r ++ argv_of r)
              (merged (entries_of (envp_of r)) (persisted (SESSION w))) in
  exists w', Executor_run cv host r w = Ok (fp r') w'
             /\ trace w' = trace w ++ [Invoke r; Delegate (symbol r) r'].
Proof.
  intros Hon Hsup Hne Hfp Hptr Hroom r'.
  unfold Executor_run, bind, emit, get_SESSION, Resolver_resolve, dynamic_linker.
  cbn. rewrite Hfp, Hon, Hsup. cbn.
  apply String.eqb_neq in Hne. rewrite Hne.
  unfold rewrite_cost in Hroom.
  unfold Storage_allocate_array, Storage_allocate, environment_merge, bind. cbn.
  rewrite (proj2 (Z.leb_le _ _)) by (cbn in Hroom |- *; nia). cbn.
  unfold Storage_allocate_array, Storage_allocate, bind. cbn.
  rewrite (proj2 (Z.leb_le _ _)) by (cbn in Hroom |- *; nia). cbn.
  eexists. unfold call_through, bind, emit, ret. cbn.
  split; [reflexivity|]. cbn. rewrite symbol_retarget, snoc_snoc. reflexivity.
Qed.

(** ** The entry points, step by step *)

(** Every entry point reports its own name and then calls the Executor with
    the call [handed] describes; where [handed] is undefined, so is the
    entry point. *)
Lemma intercept_handed (c : call) (w : World) :
  intercept cv host c w
  = match handed (environ w) c with
    | Some r =>
        Executor_run cv host r
          (add_events w (reported host (SESSION w) (operation c)))
    | None => Undefined
    end.
Proof.
  destruct c; cbn [intercept handed operation];
    unfold execve, execv, execvpe, execvp, execvP, exect, execl, execlp, execle,
      posix_spawn, posix_spawnp, Executor_execve, Executor_execvpe,
      Executor_execvP, Executor_posix_spawn, Executor_posix_spawnp;
    unfold bind at 1; rewrite write_message_run;
    try reflexivity;
    unfold stack_vector, bind, defined, environment_current;
    destruct (va_length va) as [[argc r0]|]; try reflexivity;
    destruct (array_store _ 0 _) as [a0|]; try reflexivity;
    destruct (va_copy_n va a0 1 argc) as [[a1 ap]|]; try reflexivity.
  - destruct (c_strings a1); reflexivity.
  - destruct (c_strings a1); reflexivity.
  - destruct (va_arg_vec ap) as [[e r1]|]; [|reflexivity].
    destruct (c_strings a1); reflexivity.
Qed.

(** What the trace looks like after an entry point ran. *)
Lemma intercept_trace (c : call) (w : World) (r : request) :
  handed (environ w) c = Some r ->
  (exists w', intercept cv host c w = Fatal w'
      /\ trace w' = trace w ++ reported host (SESSION w) (operation c) ++ [Invoke r])
  \/ (exists fp r' w', intercept cv host c w = Ok (fp r') w'
      /\ dlsym_next host (symbol r') = Some fp
      /\ symbol r' = symbol r
      /\ out_pointer r' = out_pointer r
      /\ trace w' = trace w ++ reported host (SESSION w) (operation c)
                      ++ [Invoke r; Delegate (symbol r') r']).
Proof.
  intros Hr. rewrite intercept_handed, Hr.
  destruct (Executor_run_cases r
              (add_events w (reported host (SESSION w) (operation c))))
    as [(w' & Hrun & Ht) | (fp & r' & w' & Hrun & Hfp & Hsym & Hout & Ht & _)].
  - left. exists w'. split; [exact Hrun|].
    rewrite Ht. cbn. rewrite <- app_assoc. reflexivity.
  - right. exists fp, r', w'. repeat split; try assumption.
    rewrite Ht. cbn. rewrite <- app_assoc. reflexivity.
Qed.

Lemma calls_of_app (t t' : list event) : calls_of (t ++ t') = calls_of t ++ calls_of t'.
Proof. unfold calls_of. apply omap_app. Qed.

Lemma delegated_app (t t' : list event) : delegated (t ++ t') = delegated t ++ delegated t'.
Proof. unfold delegated. apply omap_app. Qed.

Lemma calls_of_reported (s : Session) (name : string) : calls_of (reported host s name) = [].
Proof.
  unfold reported.
  destruct (if Session_enabled s then destination s else None) as [d|];
    [destruct (writable host d); [|destruct (verbose s)]|]; reflexivity.
Qed.

Lemma delegated_reported (s : Session) (name : string) : delegated (reported host s name) = [].
Proof.
  unfold reported.
  destruct (if Session_enabled s then destination s else None) as [d|];
    [destruct (writable host d); [|destruct (verbose s)]|]; reflexivity.
Qed.

(** An entry point whose marshalling is defined calls the Executor exactly
    once, with the call [handed] describes. *)
Lemma intercept_calls (c : call) (w : World) (r : request) :
  handed (environ w) c = Some r ->
  exists w', world_of (intercept cv host c w) = Some w'
             /\ calls_of (trace w') = calls_of (trace w) ++ [r].
Proof.
  intros Hr.
  destruct (intercept_trace c w r Hr)
    as [(w' & Hrun & Ht) | (fp & r' & w' & Hrun & _ & _ & _ & Ht)];
    exists w'; rewrite Hrun, Ht, !calls_of_app, calls_of_reported;
    split; reflexivity.
Qed.

(** The Executor call of a well-formed variadic call. *)
Lemma handed_variadic (c : call) (first : string) (l : list string)
    (rest : va_list) (env : list string) :
  variadic_call c first l rest ->
  Z.of_nat (length l) < 2 ^ SIZE_WIDTH - 2 ->
  exists r, handed env c = Some r
            /\ target_of r = first
            /\ argv_of r = first :: l
            /\ envp_of r = match rest, c with
                           | Vec e :: _, Call_execle _ _ _ => e
                           | _, _ => env
                           end.
Proof.
  intros Hc Hbound.
  destruct Hc; cbn [handed]; rewrite stack_vector_strings by exact Hbound;
    change (Str ?p :: map Str l ++ [Null]) with (map Str (p :: l) ++ [Null]);
    cbn [va_arg_vec]; rewrite c_strings_terminated;
    eexists; repeat split; cbn;
    try (destruct rest as [|[| | |] ?]; reflexivity).
Qed.

(** ** Variadic entry points *)

Lemma trailing_variadic (c : call) (first : string) (l : list string) (rest : va_list) :
  variadic_call c first l rest -> trailing c = map Str l ++ Null :: rest.
Proof. intros Hc. destruct Hc; reflexivity. Qed.

Lemma lookup_terminator (first : string) (l : list string) :
  (Str first :: map Str l ++ [Null]) !! S (length l) = Some Null.
Proof.
  cbn [lookup list_lookup]. induction l as [|s l IH]; [reflexivity|exact IH].
Qed.

(** C9.  For every call of execl, execlp or execle whose variadic arguments
    are the strings [l], the null sentinel and then [rest], the array built on
    the stack holds the path (respectively file) parameter in slot 0, the
    strings [l] behind it, and a null pointer in the slot after the last
    copied string; the Executor is called with that parameter as target and
    with the vector [first :: l].  The first named argument [arg] is not in
    it: whatever [arg] is, the Executor call is the same. *)
Theorem variadic_vector_contents (c : call) (first : string) (l : list string)
    (rest : va_list) (w : World) :
  variadic_call c first l rest ->
  Z.of_nat (length l) < 2 ^ SIZE_WIDTH - 2 ->
  stack_vector first (trailing c) = Some (Str first :: map Str l ++ [Null], rest)
  /\ (Str first :: map Str l ++ [Null]) !! S (length l) = Some Null
  /\ (exists r w', world_of (intercept cv host c w) = Some w'
        /\ calls_of (trace w') = calls_of (trace w) ++ [r]
        /\ target_of r = first
        /\ argv_of r = first :: l)
  /\ (forall arg', handed (environ w) (replace_arg c arg') = handed (environ w) c).
Proof.
  intros Hc Hbound.
  split; [|split; [|split]].
  - rewrite (trailing_variadic c first l rest Hc).
    apply stack_vector_strings. exact Hbound.
  - apply lookup_terminator.
  - destruct (handed_variadic c first l rest (environ w) Hc Hbound)
      as (r & Hr & Htarget & Hargv & _).
    destruct (intercept_calls c w r Hr) as (w' & Hw' & Hcalls).
    exists r, w'. repeat split; assumption.
  - intros arg'. destruct Hc; reflexivity.
Qed.

(** C3, as amended.  For every call of execl, execlp or execle with [n]
    strings before the null sentinel ([n] = 0, 1 or more), the variadic
    arguments are traversed twice from their start: the first traversal
    counts [n] and stops behind the sentinel, the second copies into an array
    of [n + 2] slots and stops at the same place; and the argument vector the
    Executor receives has [n + 1] entries: the path or file parameter and the
    [n] counted strings. *)
Theorem variadic_vector_length (c : call) (first : string) (l : list string)
    (rest : va_list) (w : World) :
  variadic_call c first l rest ->
  Z.of_nat (length l) < 2 ^ SIZE_WIDTH - 2 ->
  va_length (trailing c) = Some (Z.of_nat (length l), rest)
  /\ (exists a0 a,
        array_store (replicate (Z.to_nat (size_t (Z.of_nat (length l) + 2))) Undef)
          0 (Str first) = Some a0
        /\ va_copy_n (trailing c) a0 1 (Z.of_nat (length l)) = Some (a, rest)
        /\ length a = (length l + 2)%nat)
  /\ (exists r w', world_of (intercept cv host c w) = Some w'
        /\ calls_of (trace w') = calls_of (trace w) ++ [r]
        /\ length (argv_of r) = S (length l)).
Proof.
  intros Hc Hbound.
  pose proof (trailing_variadic c first l rest Hc) as Hva.
  pose proof (stack_vector_strings first l rest Hbound) as Hstack.
  assert (Hlen : va_length (trailing c) = Some (Z.of_nat (length l), rest))
    by (rewrite Hva; apply va_length_strings; lia).
  split; [exact Hlen|split].
  - rewrite <- Hva in Hstack. unfold stack_vector in Hstack.
    rewrite Hlen in Hstack.
    destruct (array_store _ 0 (Str first)) as [a0|]; [|discriminate].
    exists a0, (Str first :: map Str l ++ [Null]).
    split; [reflexivity|split; [exact Hstack|]].
    cbn [length]. rewrite length_app, length_map. cbn [length]. lia.
  - destruct (handed_variadic c first l rest (environ w) Hc Hbound)
      as (r & Hr & _ & Hargv & _).
    destruct (intercept_calls c w r Hr) as (w' & Hw' & Hcalls).
    exists r, w'. repeat split; try assumption.
    rewrite Hargv. reflexivity.
Qed.

(** C4.  For every call of execle whose variadic arguments end
    [..., nullptr, envp], the count of the first traversal does not include
    [envp] (it stops at the sentinel, with [envp] the next unread argument),
    and the Executor is called with exactly [envp] as environment vector and
    with an argument vector that does not contain it, whatever the live
    environment of the process is. *)
Theorem execle_environment_positional (path arg : string) (l envp : list string)
    (rest : va_list) (w : World) :
  Z.of_nat (length l) < 2 ^ SIZE_WIDTH - 2 ->
  va_length (map Str l ++ Null :: Vec envp :: rest)
  = Some (Z.of_nat (length l), Vec envp :: rest)
  /\ exists w',
       world_of (execle cv host path arg (map Str l ++ Null :: Vec envp :: rest) w)
       = Some w'
       /\ calls_of (trace w') = calls_of (trace w) ++ [Execve path (path :: l) envp].
Proof.
  intros Hbound. split.
  - apply va_length_strings. lia.
  - pose (c := Call_execle path arg (map Str l ++ Null :: Vec envp :: rest)).
    assert (Hr : handed (environ w) c = Some (Execve path (path :: l) envp)).
    { cbn [c handed]. rewrite stack_vector_strings by exact Hbound.
      change (Str path :: map Str l ++ [Null]) with (map Str (path :: l) ++ [Null]).
      cbn [va_arg_vec]. rewrite c_strings_terminated. reflexivity. }
    exact (intercept_calls c w _ Hr).
Qed.

(** ** Which environment reaches the Executor *)

Lemma va_length_loop_inv (va : va_list) :
  forall (count argc : Z) (r0 : va_list),
    va_length_loop count va = Some (argc, r0) ->
    exists l : list string, va = map Str l ++ Null :: r0.
Proof.
  induction va as [|v va IH]; intros count argc r0 H; [discriminate|].
  destruct v; cbn [va_length_loop va_arg_str] in H; try discriminate.
  - injection H as _ <-. exists []. reflexivity.
  - destruct (IH _ _ _ H) as [l ->]. exists (s :: l). reflexivity.
Qed.

Lemma stack_vector_inv (first : string) (va : va_list) (a : list cval) (ap : va_list) :
  Z.of_nat (length va) < 2 ^ SIZE_WIDTH - 2 ->
  stack_vector first va = Some (a, ap) ->
  exists l : list string,
    va = map Str l ++ Null :: ap /\ a = Str first :: map Str l ++ [Null].
Proof.
  intros Hbound Hstack.
  assert (exists l r0, va = map Str l ++ Null :: r0) as (l & r0 & ->).
  { unfold stack_vector, va_length in Hstack.
    destruct (va_length_loop 0 va) as [[argc r0]|] eqn:Hlen; [|discriminate].
    destruct (va_length_loop_inv _ _ _ _ Hlen) as [l Hl]. eauto. }
  rewrite stack_vector_strings in Hstack.
  - injection Hstack as <- <-. exists l. split; reflexivity.
  - rewrite length_app, length_map in Hbound. lia.
Qed.

Lemma after_sentinel_strings (l : list string) (rest : va_list) :
  after_sentinel (map Str l ++ Null :: rest) = head rest.
Proof. induction l as [|s l IH]; [reflexivity|exact IH]. Qed.

(** C10, as amended.  Every entry point that has no environment parameter
    (execv, execvp, execvP, execl, execlp) delegates to the Executor with the
    live process environment, as [environment_current] reads it when the call
    is made, as the environment vector; only the others (execve, execvpe,
    exect, execle, posix_spawn, posix_spawnp) forward the environment vector
    their caller passed. *)
Theorem environment_forwarding (c : call) (w : World) (r : request) :
  handed (environ w) c = Some r ->
  Z.of_nat (length (trailing c)) < 2 ^ SIZE_WIDTH - 2 ->
  (exists w', world_of (intercept cv host c w) = Some w'
              /\ calls_of (trace w') = calls_of (trace w) ++ [r])
  /\ (takes_environment c = false -> envp_of r = environ w)
  /\ (takes_environment c = true -> caller_envp c = Some (envp_of r))
  /\ (takes_environment c = false
      <-> In (operation c) ["execv"; "execvp"; "execvP"; "execl"; "execlp"])
  /\ (takes_environment c = true
      <-> In (operation c)
            ["execve"; "execvpe"; "exect"; "execle"; "posix_spawn"; "posix_spawnp"]).
Proof.
  intros Hr Hbound.
  split; [exact (intercept_calls c w r Hr)|].
  split; [|split; [|split]].
  - intros Hno. destruct c; try discriminate Hno; cbn [handed] in Hr;
      try (injection Hr as <-; reflexivity);
      destruct (stack_vector _ va) as [[a ap]|]; try discriminate;
      destruct (c_strings a); try discriminate;
      injection Hr as <-; reflexivity.
  - intros Hyes. destruct c; try discriminate Hyes; cbn [handed caller_envp] in *;
      try (injection Hr as <-; reflexivity).
    destruct (stack_vector path va) as [[a ap]|] eqn:Hstack; [|discriminate].
    destruct (stack_vector_inv path va a ap Hbound Hstack) as (l & -> & ->).
    rewrite after_sentinel_strings.
    destruct ap as [|[| |e|] ap]; try discriminate;
      cbn [va_arg_vec] in Hr; (destruct (c_strings _); [|discriminate]);
      injection Hr as <-; reflexivity.
  - destruct c; cbn; split; intros H; try reflexivity; try discriminate H;
      try tauto; repeat (destruct H as [H|H]; try discriminate H); contradiction.
  - destruct c; cbn; split; intros H; try reflexivity; try discriminate H;
      try tauto; repeat (destruct H as [H|H]; try discriminate H); contradiction.
Qed.

(** ** The load and unload hooks *)

Lemma string_size_pos (s : string) : 0 < string_size s.
Proof. unfold string_size. lia. Qed.

Lemma copy_strings_fits (l : list string) :
  forall w : World,
    arena w + fold_right (fun s acc => string_size s + acc) 0 l <= BUFFER_SIZE ->
    Storage_copy_strings l w
    = Ok tt (mkWorld (LOADED w) (SESSION w)
               (arena w + fold_right (fun s acc => string_size s + acc) 0 l)
               (environ w) (trace w)).
Proof.
  induction l as [|s l IH]; intros w Hfit.
  - cbn. unfold ret. rewrite Z.add_0_r. destruct w; reflexivity.
  - cbn [Storage_copy_strings fold_right] in *.
    assert (0 <= fold_right (fun s acc => string_size s + acc) 0 l) as Hnn.
    { clear. induction l as [|x l IH]; cbn; [lia|].
      pose proof (string_size_pos x). lia. }
    unfold bind, Storage_copy_string, Storage_allocate.
    rewrite (proj2 (Z.leb_le _ _)) by lia.
    rewrite IH by (cbn; lia). cbn. rewrite Z.add_assoc. reflexivity.
Qed.

Lemma reported_fields (s s' : Session) (name : string) :
  destination s' = destination s -> reporter s' = reporter s ->
  library s' = library s -> verbose s' = verbose s ->
  reported host s' name = reported host s name.
Proof.
  intros Hd Hr Hl Hv. unfold reported, Session_enabled.
  rewrite Hd, Hr, Hl, Hv. reflexivity.
Qed.

(** A load of a library that is not loaded: the Session is constructed from
    the live environment, persisted, and the load is reported. *)
Lemma on_load_fresh (w : World) :
  LOADED w = false ->
  persist_size cv (environ w) <= BUFFER_SIZE ->
  exists w', on_load cv host w = Ok tt w'
    /\ LOADED w' = true
    /\ environ w' = environ w
    /\ trace w' = trace w ++ SessionFrom (environ w)
                    :: reported host (Session_from cv (environ w)) "on_load".
Proof.
  intros Hoff Hfit.
  unfold on_load, bind, LOADED_exchange. rewrite Hoff.
  unfold environment_current, emit, set_SESSION, Storage_init, Session_persist,
    bind, get_SESSION. cbn -[Session_write_message Storage_copy_strings].
  rewrite copy_strings_fits by (cbn; exact Hfit).
  cbn -[Session_write_message]. rewrite write_message_run. cbn.
  eexists. split; [reflexivity|]. cbn.
  split; [reflexivity|split; [reflexivity|]].
  rewrite <- app_assoc. cbn [app].
  rewrite (reported_fields (Session_from cv (environ w))) by reflexivity.
  reflexivity.
Qed.

(** A load of a library that is loaded already does nothing. *)
Lemma on_load_again (w : World) : LOADED w = true -> on_load cv host w = Ok tt w.
Proof.
  intros Hon. unfold on_load, bind, LOADED_exchange, ret. rewrite Hon.
  destruct w; cbn in *; subst; reflexivity.
Qed.

(** An unload of a loaded library reports it and clears the guard. *)
Lemma on_unload_loaded (w : World) :
  LOADED w = true ->
  exists w', on_unload host w = Ok tt w'
    /\ LOADED w' = false
    /\ SESSION w' = SESSION w
    /\ environ w' = environ w
    /\ trace w' = trace w ++ reported host (SESSION w) "on_unload".
Proof.
  intros Hon. unfold on_unload, bind, LOADED_exchange. rewrite Hon.
  cbv beta iota. cbn [negb]. rewrite write_message_run.
  eexists. split; [reflexivity|]. repeat split.
Qed.

(** An unload of a library that is not loaded does nothing. *)
Lemma on_unload_again (w : World) : LOADED w = false -> on_unload host w = Ok tt w.
Proof.
  intros Hoff. unfold on_unload, bind, LOADED_exchange, ret. rewrite Hoff.
  destruct w; cbn in *; subst; reflexivity.
Qed.

Lemma run_hooks_app (hs hs' : list hook) (w : World) :
  run_hooks cv host (hs ++ hs') w
  = match run_hooks cv host hs w with
    | Ok _ w' => run_hooks cv host hs' w'
    | Fatal w' => Fatal w'
    | Undefined => Undefined
    end.
Proof.
  revert w. induction hs as [|h hs IH]; intros w; [reflexivity|].
  cbn [app run_hooks]. unfold bind.
  destruct (run_hook cv host h w); try reflexivity. apply IH.
Qed.

Lemma loads_again (n : nat) (w : World) :
  LOADED w = true -> run_hooks cv host (replicate n Load) w = Ok tt w.
Proof.
  intros Hon. induction n as [|n IH]; [reflexivity|].
  cbn [replicate run_hooks run_hook]. unfold bind.
  rewrite on_load_again by exact Hon. exact IH.
Qed.

Lemma unloads_again (n : nat) (w : World) :
  LOADED w = false -> run_hooks cv host (replicate n Unload) w = Ok tt w.
Proof.
  intros Hoff. induction n as [|n IH]; [reflexivity|].
  cbn [replicate run_hooks run_hook]. unfold bind.
  rewrite on_unload_again by exact Hoff. exact IH.
Qed.

Lemma constructions_app (t t' : list event) :
  constructions (t ++ t') = (constructions t + constructions t')%nat.
Proof. unfold constructions. rewrite omap_app, length_app. reflexivity. Qed.

Lemma reports_app (name : string) (t t' : list event) :
  reports name (t ++ t') = (reports name t + reports name t')%nat.
Proof. unfold reports. rewrite omap_app, length_app. reflexivity. Qed.

Lemma constructions_reported (s : Session) (name : string) :
  constructions (reported host s name) = 0%nat.
Proof.
  unfold reported.
  destruct (if Session_enabled s then destination s else None) as [d|];
    [destruct (writable host d); [|destruct (verbose s)]|]; reflexivity.
Qed.

Lemma reports_reported (s : Session) (name name' : string) :
  reports name (reported host s name') = if String.eqb name' name then 1%nat else 0%nat.
Proof.
  unfold reported, reports. cbn [omap].
  destruct (if Session_enabled s then destination s else None) as [d|];
    [destruct (writable host d); [|destruct (verbose s)]|];
    cbn; destruct (String.eqb name' name); reflexivity.
Qed.

Lemma constructions_from (env : list string) (t : list event) :
  constructions (SessionFrom env :: t) = S (constructions t).
Proof. reflexivity. Qed.

(** C5, as amended.  From a process in which the library is not loaded,
    invoking the load hook any number [n >= 1] of times in a row and then the
    unload hook any number [m >= 1] of times in a row constructs the Session
    exactly once and requests the unload report exactly once.  The guard is
    a toggle that the unload hook clears: a load hook invoked after that
    constructs the Session once more. *)
Theorem hooks_once_per_cycle (w : World) (n m : nat) :
  LOADED w = false ->
  (1 <= n)%nat ->
  (1 <= m)%nat ->
  persist_size cv (environ w) <= BUFFER_SIZE ->
  exists w' w'',
    run_hooks cv host (replicate n Load ++ replicate m Unload) w = Ok tt w'
    /\ constructions (trace w') = S (constructions (trace w))
    /\ reports "on_unload" (trace w') = S (reports "on_unload" (trace w))
    /\ on_load cv host w' = Ok tt w''
    /\ constructions (trace w'') = S (S (constructions (trace w))).
Proof.
  intros Hoff Hn Hm Hfit.
  destruct n as [|n]; [lia|]. destruct m as [|m]; [lia|].
  destruct (on_load_fresh w Hoff Hfit) as (w1 & Hload & Hon1 & Henv1 & Ht1).
  destruct (on_unload_loaded w1 Hon1) as (w2 & Hunload & Hoff2 & _ & Henv2 & Ht2).
  assert (Hfit2 : persist_size cv (environ w2) <= BUFFER_SIZE)
    by (rewrite Henv2, Henv1; exact Hfit).
  destruct (on_load_fresh w2 Hoff2 Hfit2) as (w3 & Hload3 & _ & _ & Ht3).
  exists w2, w3.
  assert (Hc1 : constructions (trace w1) = S (constructions (trace w))).
  { rewrite Ht1, constructions_app, constructions_from, constructions_reported.
    lia. }
  assert (Hc2 : constructions (trace w2) = S (constructions (trace w))).
  { rewrite Ht2, constructions_app, constructions_reported, Hc1. lia. }
  split; [|split; [exact Hc2|split; [|split; [exact Hload3|]]]].
  - rewrite run_hooks_app. cbn [replicate run_hooks run_hook]. unfold bind at 1.
    rewrite Hload, (loads_again n w1 Hon1).
    unfold bind. rewrite Hunload. apply unloads_again. exact Hoff2.
  - rewrite Ht2, reports_app, reports_reported, Ht1, reports_app. cbn [String.eqb].
    change (SessionFrom ?e :: ?t) with ([SessionFrom e] ++ t).
    rewrite reports_app, reports_reported. cbn. lia.
  - rewrite Ht3, constructions_app, constructions_from, constructions_reported,
      Hc2. lia.
Qed.

(** ** Reports and delegation *)




(** What a run of the Executor ends in, exactly: the process is aborted,
    with nothing delegated, when the loader does not find the original
    implementation or the arena lacks room; otherwise the original
    implementation found is called once, on [delegated_request], and its
    result is the result of the run. *)
Lemma Executor_run_exact (r : request) (w : World) :
  match dlsym_next host (symbol r) with
  | Some fp =>
      if arena_suffices cv w r then
        exists w', Executor_run cv host r w
                   = Ok (fp (delegated_request cv (SESSION w) r)) w'
          /\ trace w' = trace w ++ [Invoke r;
                                    Delegate (symbol r) (delegated_request cv (SESSION w) r)]
      else
        exists w', Executor_run cv host r w = Fatal w'
          /\ trace w' = trace w ++ [Invoke r]
  | None =>
      exists w', Executor_run cv host r w = Fatal w'
        /\ trace w' = trace w ++ [Invoke r]
  end.
Proof.
  unfold Executor_run, arena_suffices, delegated_request, bind, emit, get_SESSION,
    Resolver_resolve, dynamic_linker.
  cbn.
  destruct (dlsym_next host (symbol r)) as [fp|]; cbn.
  2:{ eexists. split; reflexivity. }
  destruct (if Session_enabled (SESSION w) then reporter (SESSION w) else None)
    as [sup|].
  2:{ eexists. unfold call_through, bind, emit, ret. cbn.
      rewrite snoc_snoc. split; reflexivity. }
  destruct (String.eqb (target_of r) sup).
  { eexists. unfold call_through, bind, emit, ret. cbn.
    rewrite snoc_snoc. split; reflexivity. }
  unfold Storage_allocate_array, Storage_allocate, environment_merge, bind. cbn.
  match goal with |- context [?a <=? BUFFER_SIZE] => destruct (a <=? BUFFER_SIZE) end;
    cbn.
  2:{ eexists. split; reflexivity. }
  unfold Storage_allocate_array, Storage_allocate, bind. cbn.
  match goal with |- context [?a <=? BUFFER_SIZE] => destruct (a <=? BUFFER_SIZE) end;
    cbn.
  2:{ eexists. split; reflexivity. }
  eexists. unfold call_through, bind, emit, ret. cbn.
  rewrite symbol_retarget, snoc_snoc. split; reflexivity.
Qed.

Lemma symbol_delegated_request (s : Session) (r : request) :
  symbol (delegated_request cv s r) = symbol r.
Proof.
  unfold delegated_request.
  destruct (if Session_enabled s then reporter s else None) as [sup|];
    [destruct (String.eqb (target_of r) sup)|];
    rewrite ?symbol_retarget; reflexivity.
Qed.

Lemma out_pointer_delegated_request (s : Session) (r : request) :
  out_pointer (delegated_request cv s r) = out_pointer r.
Proof.
  unfold delegated_request.
  destruct (if Session_enabled s then reporter s else None) as [sup|];
    [destruct (String.eqb (target_of r) sup)|];
    rewrite ?out_pointer_retarget; reflexivity.
Qed.

(** C7.  For every entry point, on every call whose marshalling is defined,
    the entry point returns exactly what its call of the Executor returns,
    and that is decided as follows.  When the loader finds the original
    implementation for the shape of the call and the arena has room for what
    the Executor builds, the entry point returns: exactly one original
    implementation is called, the one found, once, with the caller's output
    pointer for the child identifier where the shape has one, and what that
    call returned is what the entry point returns, unchanged: the value and,
    for the spawn shapes, the child identifier stored through the output
    pointer.  Only when the loader finds nothing, or the arena lacks room,
    is the process aborted, and then nothing was delegated. *)
Theorem delegate_result_returned (c : call) (w : World) :
  match handed (environ w) c with
  | None => intercept cv host c w = Undefined
  | Some r =>
      intercept cv host c w
      = Executor_run cv host r
          (add_events w (reported host (SESSION w) (operation c)))
      /\ match dlsym_next host (symbol r) with
         | Some fp =>
             if arena_suffices cv w r then
               exists w',
                 intercept cv host c w
                 = Ok (fp (delegated_request cv (SESSION w) r)) w'
                 /\ delegated (trace w')
                    = delegated (trace w) ++ [delegated_request cv (SESSION w) r]
                 /\ symbol (delegated_request cv (SESSION w) r) = symbol r
                 /\ out_pointer (delegated_request cv (SESSION w) r) = out_pointer r
             else
               exists w', intercept cv host c w = Fatal w'
                          /\ delegated (trace w') = delegated (trace w)
         | None =>
             exists w', intercept cv host c w = Fatal w'
                        /\ delegated (trace w') = delegated (trace w)
         end
  end.
Proof.
  rewrite intercept_handed.
  destruct (handed (environ w) c) as [r|] eqn:Hr; [|reflexivity].
  split; [reflexivity|].
  pose proof (Executor_run_exact r
                (add_events w (reported host (SESSION w) (operation c)))) as Hrun.
  change (arena_suffices cv (add_events w ?es) r) with (arena_suffices cv w r) in Hrun.
  cbn [add_events SESSION trace] in Hrun.
  destruct (dlsym_next host (symbol r)) as [fp|].
  - destruct (arena_suffices cv w r).
    + destruct Hrun as (w' & -> & Ht). exists w'. split; [reflexivity|].
      split; [|split].
      * rewrite Ht, !delegated_app, delegated_reported, app_nil_r. reflexivity.
      * apply symbol_delegated_request.
      * apply out_pointer_delegated_request.
    + destruct Hrun as (w' & -> & Ht). exists w'. split; [reflexivity|].
      rewrite Ht, !delegated_app, delegated_reported. cbn. rewrite !app_nil_r.
      reflexivity.
  - destruct Hrun as (w' & -> & Ht). exists w'. split; [reflexivity|].
    rewrite Ht, !delegated_app, delegated_reported. cbn. rewrite !app_nil_r.
    reflexivity.
Qed.

(** ** Pass-through and rewriting *)

(** The entry points that take an argument vector hand the caller's target,
    vector and environment (or the live one) to the Executor as they are. *)
Lemma handed_vector_call (c : call) (env : list string) :
  is_variadic c = false ->
  exists r, handed env c = Some r
            /\ target_of r = caller_target c
            /\ argv_of r = caller_argv c
            /\ envp_of r = match caller_envp c with Some e => e | None => env end.
Proof.
  intros Hv. destruct c; try discriminate Hv; eexists; repeat split.
Qed.

Lemma strings_before_sentinel_strings (l : list string) (rest : va_list) :
  strings_before_sentinel (map Str l ++ Null :: rest) = l.
Proof. induction l as [|s l IH]; [reflexivity|]. cbn. rewrite IH. reflexivity. Qed.

(** The variadic entry points hand over a vector that starts with the path
    or file parameter where the caller's vector starts with [arg]. *)
Lemma handed_variadic_call (c : call) (first : string) (l : list string)
    (rest : va_list) (env : list string) :
  variadic_call c first l rest ->
  Z.of_nat (length l) < 2 ^ SIZE_WIDTH - 2 ->
  exists r arg, handed env c = Some r
                /\ caller_argv c = arg :: l
                /\ argv_of r = first :: l.
Proof.
  intros Hc Hbound.
  destruct (handed_variadic c first l rest env Hc Hbound) as (r & Hr & _ & Hargv & _).
  destruct Hc; exists r; eexists; (split; [exact Hr|]);
    (split; [|exact Hargv]); cbn [caller_argv];
    rewrite strings_before_sentinel_strings; reflexivity.
Qed.

(** With a disabled Session, whatever the Executor is handed is what the
    original implementation is called with, and the call returns its result. *)
Lemma pass_through (c : call) (w : World) (r : request) (fp : implementation) :
  Session_enabled (SESSION w) = false ->
  handed (environ w) c = Some r ->
  dlsym_next host (symbol r) = Some fp ->
  exists w', intercept cv host c w = Ok (fp r) w'
             /\ delegated (trace w') = delegated (trace w) ++ [r].
Proof.
  intros Hoff Hr Hfp. rewrite intercept_handed, Hr.
  rewrite (Executor_run_disabled r _ fp) by assumption.
  eexists. split; [reflexivity|]. cbn.
  rewrite !delegated_app, delegated_reported, app_nil_r. reflexivity.
Qed.

(** With a disabled Session, an entry point that takes an argument vector
    passes the caller's target, vector and environment to the original
    implementation unchanged. *)
Lemma pass_through_vector_call (c : call) (w : World) :
  is_variadic c = false ->
  Session_enabled (SESSION w) = false ->
  (forall name, dlsym_next host name <> None) ->
  exists v w' r, intercept cv host c w = Ok v w'
    /\ delegated (trace w') = delegated (trace w) ++ [r]
    /\ target_of r = caller_target c
    /\ argv_of r = caller_argv c
    /\ envp_of r = match caller_envp c with Some e => e | None => environ w end.
Proof.
  intros Hv Hoff Hres.
  destruct (handed_vector_call c (environ w) Hv) as (r & Hr & Ht & Ha & He).
  destruct (dlsym_next host (symbol r)) as [fp|] eqn:Hfp;
    [|exfalso; exact (Hres _ Hfp)].
  destruct (pass_through c w r fp Hoff Hr Hfp) as (w' & Hrun & Hd).
  exists (fp r), w', r. repeat split; assumption.
Qed.

(** With an enabled Session, a target other than the supervisor and room in
    the arena, whatever the Executor is handed is delegated with the
    supervisor as target and behind the fixed prefix. *)
Lemma rewritten (c : call) (w : World) (r : request) (fp : implementation)
    (supervisor : string) :
  Session_enabled (SESSION w) = true ->
  reporter (SESSION w) = Some supervisor ->
  handed (environ w) c = Some r ->
  target_of r <> supervisor ->
  dlsym_next host (symbol r) = Some fp ->
  0 <= POINTER_SIZE cv ->
  arena w + rewrite_cost cv (SESSION w) supervisor r <= BUFFER_SIZE ->
  exists v w' r', intercept cv host c w = Ok v w'
    /\ delegated (trace w') = delegated (trace w) ++ [r']
    /\ target_of r' = supervisor
    /\ argv_of r' = fixed_prefix cv (SESSION w) supervisor r ++ argv_of r.
Proof.
  intros Hon Hsup Hr Hne Hfp Hptr Hroom. rewrite intercept_handed, Hr.
  destruct (Executor_run_enabled r
              (add_events w (reported host (SESSION w) (operation c)))
              fp supervisor Hon Hsup Hne Hfp Hptr Hroom)
    as (w' & Hrun & Ht).
  eexists _, w', _. split; [exact Hrun|]. split; [|split].
  - rewrite Ht. cbn. rewrite !delegated_app, delegated_reported, app_nil_r.
    reflexivity.
  - destruct r; reflexivity.
  - destruct r; reflexivity.
Qed.

(** With an enabled Session, for an entry point that takes an argument
    vector, the delegated vector is the fixed prefix followed by the
    caller's vector, first element included. *)
Lemma rewritten_vector_call (c : call) (w : World) (supervisor : string) :
  is_variadic c = false ->
  Session_enabled (SESSION w) = true ->
  reporter (SESSION w) = Some supervisor ->
  caller_target c <> supervisor ->
  (forall name, dlsym_next host name <> None) ->
  0 <= POINTER_SIZE cv ->
  (forall r, handed (environ w) c = Some r ->
             arena w + rewrite_cost cv (SESSION w) supervisor r <= BUFFER_SIZE) ->
  exists v w' r r', intercept cv host c w = Ok v w'
    /\ handed (environ w) c = Some r
    /\ delegated (trace w') = delegated (trace w) ++ [r']
    /\ target_of r' = supervisor
    /\ argv_of r' = fixed_prefix cv (SESSION w) supervisor r ++ caller_argv c.
Proof.
  intros Hv Hon Hsup Hne Hres Hptr Hroom.
  destruct (handed_vector_call c (environ w) Hv) as (r & Hr & Ht & Ha & _).
  destruct (dlsym_next host (symbol r)) as [fp|] eqn:Hfp;
    [|exfalso; exact (Hres _ Hfp)].
  rewrite <- Ht in Hne.
  destruct (rewritten c w r fp supervisor Hon Hsup Hr Hne Hfp Hptr (Hroom r Hr))
    as (v & w' & r' & Hrun & Hd & Htarget & Hargv).
  exists v, w', r, r'. rewrite <- Ha. repeat split; assumption.
Qed.

End Facts.

(** * The properties on concrete calls *)

(** ** Variadic entry points *)

(** The vector built for [execl("/bin/ls", "ls", "-la", nullptr)]. *)
Lemma variadic_vector_contents_witness :
  variadic_call sample_execl "/bin/ls" ["-la"] []
  /\ Z.of_nat (length ["-la"]) < 2 ^ SIZE_WIDTH - 2
  /\ stack_vector "/bin/ls" (trailing sample_execl)
     = Some ([Str "/bin/ls"; Str "-la"; Null], [])
  /\ [Str "/bin/ls"; Str "-la"; Null] !! 2%nat = Some Null
  /\ (exists r w',
        world_of (intercept sample_conventions sample_host sample_execl
                    (initial_world plain_environ)) = Some w'
        /\ calls_of (trace w') = calls_of (trace (initial_world plain_environ)) ++ [r]
        /\ target_of r = "/bin/ls"
        /\ argv_of r = ["/bin/ls"; "-la"])
  /\ (forall arg',
        handed (environ (initial_world plain_environ)) (replace_arg sample_execl arg')
        = handed (environ (initial_world plain_environ)) sample_execl).
Proof.
  split; [exact (variadic_execl "/bin/ls" "ls" ["-la"] [])|].
  split; [vm_compute; reflexivity|].
  apply (variadic_vector_contents sample_conventions sample_host sample_execl
           "/bin/ls" ["-la"] [] (initial_world plain_environ)).
  - exact (variadic_execl "/bin/ls" "ls" ["-la"] []).
  - vm_compute; reflexivity.
Defined.

(** C3, as stated, fails on [execl("/bin/ls", "ls", nullptr)]: the first
    traversal counts 0 arguments before the sentinel, and the argument vector
    the Executor receives has one entry, in an array of two slots. *)
Lemma execl_bare_vector_length :
  va_length (trailing sample_execl_bare) = Some (0, [])
  /\ stack_vector "/bin/ls" (trailing sample_execl_bare)
     = Some ([Str "/bin/ls"; Null], [])
  /\ (exists w',
        world_of (intercept sample_conventions sample_host sample_execl_bare
                    (initial_world plain_environ)) = Some w'
        /\ calls_of (trace w') = [Execve "/bin/ls" ["/bin/ls"] plain_environ])
  /\ Z.of_nat (length (argv_of (Execve "/bin/ls" ["/bin/ls"] plain_environ))) <> 0.
Proof.
  split; [reflexivity|]. split; [reflexivity|]. split.
  - eexists. split; reflexivity.
  - cbn. lia.
Qed.

(** The two traversals and the lengths for
    [execle("/bin/ls", "ls", "-la", nullptr, envp)]. *)
Lemma variadic_vector_length_witness :
  variadic_call sample_execle "/bin/ls" ["-la"] [Vec ["A=1"]]
  /\ Z.of_nat (length ["-la"]) < 2 ^ SIZE_WIDTH - 2
  /\ va_length (trailing sample_execle) = Some (1, [Vec ["A=1"]])
  /\ (exists a0 a,
        array_store (replicate (Z.to_nat (size_t (1 + 2))) Undef) 0 (Str "/bin/ls")
        = Some a0
        /\ va_copy_n (trailing sample_execle) a0 1 1 = Some (a, [Vec ["A=1"]])
        /\ length a = 3%nat)
  /\ (exists r w',
        world_of (intercept sample_conventions sample_host sample_execle
                    (initial_world plain_environ)) = Some w'
        /\ calls_of (trace w') = calls_of (trace (initial_world plain_environ)) ++ [r]
        /\ length (argv_of r) = 2%nat).
Proof.
  split; [exact (variadic_execle "/bin/ls" "ls" ["-la"] ["A=1"] [])|].
  split; [vm_compute; reflexivity|].
  apply (variadic_vector_length sample_conventions sample_host sample_execle
           "/bin/ls" ["-la"] [Vec ["A=1"]] (initial_world plain_environ)).
  - exact (variadic_execle "/bin/ls" "ls" ["-la"] ["A=1"] []).
  - vm_compute; reflexivity.
Defined.

(** [execle("/bin/ls", "ls", "-la", nullptr, envp)] with [envp = {"A=1"}] in
    a process whose live environment is [{"HOME=/root"}]. *)
Lemma execle_environment_positional_witness :
  Z.of_nat (length ["-la"]) < 2 ^ SIZE_WIDTH - 2
  /\ va_length [Str "-la"; Null; Vec ["A=1"]] = Some (1, [Vec ["A=1"]])
  /\ exists w',
       world_of (execle sample_conventions sample_host "/bin/ls" "ls"
                   [Str "-la"; Null; Vec ["A=1"]] (initial_world plain_environ))
       = Some w'
       /\ calls_of (trace w')
          = calls_of (trace (initial_world plain_environ))
            ++ [Execve "/bin/ls" ["/bin/ls"; "-la"] ["A=1"]].
Proof.
  split; [vm_compute; reflexivity|].
  apply (execle_environment_positional sample_conventions sample_host
           "/bin/ls" "ls" ["-la"] ["A=1"] [] (initial_world plain_environ)).
  vm_compute; reflexivity.
Defined.

(** ** Which environment reaches the Executor *)

(** C10, as stated, fails on [exect]: it is not among the entry points the
    list of C10 names as forwarding a caller-supplied environment, yet it hands the
    Executor the caller's [envp], not the live environment. *)
Lemma exect_forwards_caller_environment :
  ~ In (operation sample_exect)
       ["execve"; "execvpe"; "execle"; "posix_spawn"; "posix_spawnp"]
  /\ caller_envp sample_exect = Some (Envp ["A=1"])
  /\ environ (initial_world plain_environ) = ["HOME=/root"]
  /\ exists w',
       world_of (intercept sample_conventions sample_host sample_exect
                   (initial_world plain_environ)) = Some w'
       /\ calls_of (trace w') = [Execve "/bin/ls" ["ls"] ["A=1"]].
Proof.
  split.
  - cbn. intros H. repeat (destruct H as [H|H]; [discriminate H|]). exact H.
  - split; [reflexivity|]. split; [reflexivity|].
    eexists. split; reflexivity.
Qed.

(** [execvp("ls", argv)] hands the live environment to the Executor. *)
Lemma environment_forwarding_witness :
  handed (environ (initial_world plain_environ)) sample_execvp
  = Some (Execvpe "ls" ["ls"; "-la"] plain_environ)
  /\ Z.of_nat (length (trailing sample_execvp)) < 2 ^ SIZE_WIDTH - 2
  /\ (exists w',
        world_of (intercept sample_conventions sample_host sample_execvp
                    (initial_world plain_environ)) = Some w'
        /\ calls_of (trace w')
           = calls_of (trace (initial_world plain_environ))
             ++ [Execvpe "ls" ["ls"; "-la"] plain_environ])
  /\ (takes_environment sample_execvp = false ->
      envp_of (Execvpe "ls" ["ls"; "-la"] plain_environ)
      = environ (initial_world plain_environ))
  /\ (takes_environment sample_execvp = true ->
      caller_envp sample_execvp
      = Some (envp_of (Execvpe "ls" ["ls"; "-la"] plain_environ)))
  /\ (takes_environment sample_execvp = false
      <-> In (operation sample_execvp) ["execv"; "execvp"; "execvP"; "execl"; "execlp"])
  /\ (takes_environment sample_execvp = true
      <-> In (operation sample_execvp)
            ["execve"; "execvpe"; "exect"; "execle"; "posix_spawn"; "posix_spawnp"]).
Proof.
  split; [reflexivity|].
  split; [vm_compute; reflexivity|].
  apply (environment_forwarding sample_conventions sample_host sample_execvp
           (initial_world plain_environ)).
  - reflexivity.
  - vm_compute; reflexivity.
Defined.

(** ** The load and unload hooks *)

(** C5, as stated, fails on load, unload, load, unload: the Session is
    constructed twice in one process, and the unload report is requested and
    written twice. *)
Lemma reload_constructs_again :
  exists w',
    run_hooks sample_conventions sample_host [Load; Unload; Load; Unload]
      (initial_world enabled_environ) = Ok tt w'
    /\ constructions (trace w') = 2%nat
    /\ reports "on_unload" (trace w') = 2%nat
    /\ records (trace w') = ["on_load"; "on_unload"; "on_load"; "on_unload"].
Proof.
  run_to_world (run_hooks sample_conventions sample_host [Load; Unload; Load; Unload]
                  (initial_world enabled_environ)).
  repeat split; vm_compute; reflexivity.
Qed.

(** Two loads, then three unloads, then one more load. *)
Lemma hooks_once_per_cycle_witness :
  LOADED (initial_world enabled_environ) = false
  /\ (1 <= 2)%nat
  /\ (1 <= 3)%nat
  /\ persist_size sample_conventions (environ (initial_world enabled_environ))
     <= BUFFER_SIZE
  /\ exists w' w'',
       run_hooks sample_conventions sample_host
         (replicate 2 Load ++ replicate 3 Unload) (initial_world enabled_environ)
       = Ok tt w'
       /\ constructions (trace w')
          = S (constructions (trace (initial_world enabled_environ)))
       /\ reports "on_unload" (trace w')
          = S (reports "on_unload" (trace (initial_world enabled_environ)))
       /\ on_load sample_conventions sample_host w' = Ok tt w''
       /\ constructions (trace w'')
          = S (S (constructions (trace (initial_world enabled_environ)))).
Proof.
  assert (Hfit : persist_size sample_conventions
                   (environ (initial_world enabled_environ)) <= BUFFER_SIZE).
  { replace (persist_size sample_conventions
               (environ (initial_world enabled_environ))) with 120
      by (vm_compute; reflexivity).
    unfold BUFFER_SIZE. lia. }
  split; [reflexivity|]. split; [lia|]. split; [lia|]. split; [exact Hfit|].
  apply (hooks_once_per_cycle sample_conventions sample_host
           (initial_world enabled_environ) 2 3).
  - reflexivity.
  - lia.
  - lia.
  - exact Hfit.
Defined.

(** ** Reports and delegation *)



(** A spawn that succeeds: the entry point returns the value 0 and the child
    identifier 4242 of the original [posix_spawn], which was called with the
    caller's output pointer, both with a disabled and with an enabled Session. *)
Lemma posix_spawn_forwards_child :
  (exists w',
     intercept sample_conventions spawning_host sample_spawn
       (loaded_world plain_environ) = Ok (Returned 0 (Some 4242)) w'
     /\ delegated (trace w') = [PosixSpawn 1000 "/bin/ls" 0 0 ["ls"] ["A=1"]])
  /\ (exists w' r',
        intercept sample_conventions spawning_host sample_spawn
          (loaded_world enabled_environ) = Ok (Returned 0 (Some 4242)) w'
        /\ delegated (trace w') = [r']
        /\ symbol r' = "posix_spawn"
        /\ target_of r' = "/bin/true"
        /\ out_pointer r' = Some 1000).
Proof.
  split.
  - run_to_world (intercept sample_conventions spawning_host sample_spawn
                    (loaded_world plain_environ)).
    split; vm_compute; reflexivity.
  - run_to_world (intercept sample_conventions spawning_host sample_spawn
                    (loaded_world enabled_environ)).
    eexists. split; [vm_compute; reflexivity|].
    split; [vm_compute; reflexivity|]. repeat split.
Qed.

(** The two ways a call ends: where the original [execvpe] is found, the
    entry point returns its result, [-1] here; where the loader finds
    nothing, the process is aborted and nothing was delegated. *)
Lemma resolved_returns_unresolved_aborts :
  (exists w',
     intercept sample_conventions sample_host sample_execvp
       (loaded_world plain_environ) = Ok (Returned (-1) None) w'
     /\ delegated (trace w') = [Execvpe "ls" ["ls"; "-la"] plain_environ])
  /\ (exists w',
        intercept sample_conventions unresolving_host sample_execvp
          (loaded_world plain_environ) = Fatal w'
        /\ delegated (trace w') = []).
Proof.
  split.
  - run_to_world (intercept sample_conventions sample_host sample_execvp
                    (loaded_world plain_environ)).
    split; vm_compute; reflexivity.
  - run_to_world (intercept sample_conventions unresolving_host sample_execvp
                    (loaded_world plain_environ)).
    split; vm_compute; reflexivity.
Qed.

(** ** Pass-through and rewriting on a variadic call *)

(** C2 on [execl("/bin/ls", "ls", "-la", nullptr)] with a disabled Session:
    the caller's argument vector is ["ls"; "-la"], the original [execve] is
    called with ["/bin/ls"; "-la"]. *)
Theorem execl_pass_through_vector :
  Session_enabled (SESSION (loaded_world plain_environ)) = false
  /\ caller_target sample_execl = "/bin/ls"
  /\ caller_argv sample_execl = ["ls"; "-la"]
  /\ exists w',
       intercept sample_conventions sample_host sample_execl
         (loaded_world plain_environ) = Ok (Returned (-1) None) w'
       /\ delegated (trace w')
          = [Execve "/bin/ls" ["/bin/ls"; "-la"] plain_environ]
       /\ ["/bin/ls"; "-la"] <> caller_argv sample_execl.
Proof.
  split; [vm_compute; reflexivity|]. split; [reflexivity|]. split; [reflexivity|].
  run_to_world (intercept sample_conventions sample_host sample_execl
                  (loaded_world plain_environ)).
  split; [vm_compute; reflexivity|]. split; [vm_compute; reflexivity|].
  vm_compute. discriminate.
Qed.

(** C1 on [execl("/bin/ls", "ls", "-la", nullptr)] with an enabled Session
    whose supervisor is "/bin/true": the original [execve] is called with the
    supervisor as target, and what follows the fixed prefix in its argument
    vector is ["/bin/ls"; "-la"], where the caller's vector is ["ls"; "-la"]. *)
Theorem execl_rewritten_vector :
  let w := loaded_world enabled_environ in
  let handed_call := Execve "/bin/ls" ["/bin/ls"; "-la"] enabled_environ in
  let prefix := fixed_prefix sample_conventions (SESSION w) "/bin/true" handed_call in
  Session_enabled (SESSION w) = true
  /\ reporter (SESSION w) = Some "/bin/true"
  /\ caller_target sample_execl <> "/bin/true"
  /\ caller_argv sample_execl = ["ls"; "-la"]
  /\ prefix = ["/bin/true"; "--session"; "/tmp/sink"; "execve"; "/bin/ls"]
  /\ exists w' r',
       intercept sample_conventions sample_host sample_execl w
       = Ok (Returned (-1) None) w'
       /\ delegated (trace w') = [r']
       /\ target_of r' = "/bin/true"
       /\ take (length prefix) (argv_of r') = prefix
       /\ drop (length prefix) (argv_of r') = ["/bin/ls"; "-la"]
       /\ drop (length prefix) (argv_of r') <> caller_argv sample_execl.
Proof.
  cbv zeta.
  split; [vm_compute; reflexivity|]. split; [vm_compute; reflexivity|].
  split; [vm_compute; discriminate|].
  split; [reflexivity|]. split; [vm_compute; reflexivity|].
  run_to_world (intercept sample_conventions sample_host sample_execl
                  (loaded_world enabled_environ)).
  exists (Execve "/bin/true"
            ["/bin/true"; "--session"; "/tmp/sink"; "execve"; "/bin/ls"; "/bin/ls"; "-la"]
            enabled_environ).
  split; [vm_compute; reflexivity|]. split; [vm_compute; reflexivity|].
  split; [reflexivity|]. split; [vm_compute; reflexivity|].
  split; [vm_compute; reflexivity|].
  vm_compute. discriminate.
Qed.

(** * Further properties of the driver *)

(** ** The first traversal, in general *)

Lemma size_t_range (z : Z) : 0 <= size_t z < 2 ^ SIZE_WIDTH.
Proof. unfold size_t. apply Z.mod_pos_bound. reflexivity. Qed.

Lemma size_t_succ (c n : Z) : size_t (size_t (c + 1) + n) = size_t (c + (1 + n)).
Proof.
  unfold size_t. rewrite Z.add_mod_idemp_l by (rewrite size_width_pow; lia).
  f_equal. lia.
Qed.

Lemma va_length_loop_wraps (l : list string) :
  forall (count : Z) (rest : va_list),
    0 <= count < 2 ^ SIZE_WIDTH ->
    va_length_loop count (map Str l ++ Null :: rest)
    = Some (size_t (count + Z.of_nat (length l)), rest).
Proof.
  induction l as [|s l IH]; intros count rest Hc.
  - cbn. rewrite Z.add_0_r, size_t_small by exact Hc. reflexivity.
  - cbn [map app va_length_loop va_arg_str].
    rewrite IH by apply size_t_range.
    rewrite size_t_succ. do 3 f_equal. cbn [length]. lia.
Qed.

Lemma va_length_loop_shape (va : va_list) :
  forall (count n : Z) (rest : va_list),
    0 <= count < 2 ^ SIZE_WIDTH ->
    va_length_loop count va = Some (n, rest) ->
    exists l : list string,
      va = map Str l ++ Null :: rest /\ n = size_t (count + Z.of_nat (length l)).
Proof.
  induction va as [|v va IH]; intros count n rest Hc H; [discriminate|].
  destruct v; cbn [va_length_loop va_arg_str] in H; try discriminate.
  - injection H as <- <-. exists []. split; [reflexivity|].
    cbn. rewrite Z.add_0_r, size_t_small by exact Hc. reflexivity.
  - destruct (IH _ _ _ (size_t_range _) H) as (l & -> & ->).
    exists (s :: l). split; [reflexivity|].
    rewrite size_t_succ. f_equal. cbn [length]. lia.
Qed.

(** X1.  [va_length] returns exactly when the unread arguments are strings
    followed by a null pointer; it then returns the number of those strings,
    as a [size_t] (modulo 2^64), and leaves the traversal just behind the
    null pointer.  On anything else (no null pointer, or an argument that is
    no character pointer before it) its behaviour is undefined. *)
Theorem va_length_characterised (va : va_list) (n : Z) (rest : va_list) :
  va_length va = Some (n, rest)
  <-> exists l : list string,
        va = map Str l ++ Null :: rest /\ n = size_t (Z.of_nat (length l)).
Proof.
  unfold va_length. split.
  - intros H. apply (va_length_loop_shape va 0 n rest); [|exact H].
    rewrite size_width_pow. lia.
  - intros (l & -> & ->). rewrite va_length_loop_wraps by (rewrite size_width_pow; lia).
    reflexivity.
Qed.

(** ** The second traversal, in general *)

Lemma va_arg_str_pointer (v : cval) (rest : va_list) :
  is_char_pointer v = true -> va_arg_str (v :: rest) = Some (v, rest).
Proof. destruct v; intros H; try discriminate H; reflexivity. Qed.

(** The loop stores the next [argc + 1 - idx] arguments, whatever character
    pointers they are, into consecutive slots. *)
Lemma va_copy_n_loop_pointers (base : nat) (vs : list cval) :
  forall (idx : Z) (rest : va_list) (pre mid post : list cval),
    0 <= idx ->
    idx + Z.of_nat (length vs) < 2 ^ SIZE_WIDTH ->
    Forall (fun v => is_char_pointer v = true) vs ->
    length pre = (base + Z.to_nat idx)%nat ->
    length mid = length vs ->
    va_copy_n_loop idx (vs ++ rest) (pre ++ mid ++ post) base
      (idx + Z.of_nat (length vs) - 1)
    = Some (pre ++ vs ++ post, rest).
Proof.
  induction vs as [|v vs IH]; intros idx rest pre mid post Hpos Hbound Hptr Hpre Hmid.
  - destruct mid; [|discriminate]. cbn [app length].
    destruct rest; cbn [va_copy_n_loop];
      (replace (idx <=? idx + Z.of_nat 0 - 1) with false
         by (symmetry; apply Z.leb_gt; lia)); reflexivity.
  - destruct mid as [|m mid]; [discriminate|].
    inversion Hptr as [|? ? Hv Hvs]; subst.
    cbn [app length] in *. cbn [va_copy_n_loop].
    replace (idx <=? idx + Z.of_nat (S (length vs)) - 1) with true
      by (symmetry; apply Z.leb_le; lia).
    rewrite (va_arg_str_pointer v _ Hv).
    rewrite <- Hpre, array_store_middle.
    rewrite size_t_small by lia.
    replace (idx + Z.of_nat (S (length vs)) - 1)
      with (idx + 1 + Z.of_nat (length vs) - 1) by lia.
    replace (pre ++ v :: mid ++ post) with ((pre ++ [v]) ++ mid ++ post)
      by (rewrite <- app_assoc; reflexivity).
    rewrite (IH (idx + 1) rest (pre ++ [v]) mid post).
    + rewrite <- app_assoc. reflexivity.
    + lia.
    + lia.
    + exact Hvs.
    + rewrite length_app. cbn [length]. rewrite Hpre.
      rewrite Z2Nat.inj_add by lia. simpl (Z.to_nat 1). lia.
    + lia.
Qed.

(** Whenever the loop returns, it has read exactly [argc + 1 - idx]
    character pointers, and the slots it stored to exist. *)
Lemma va_copy_n_loop_shape (base : nat) (argc : Z) (args : va_list) :
  forall (idx : Z) (a a' : list cval) (rest : va_list),
    0 <= idx <= argc + 1 ->
    argc < 2 ^ SIZE_WIDTH - 1 ->
    va_copy_n_loop idx args a base argc = Some (a', rest) ->
    exists vs : list cval,
      args = vs ++ rest
      /\ Z.of_nat (length vs) = argc + 1 - idx
      /\ Forall (fun v => is_char_pointer v = true) vs
      /\ (vs = [] \/ (base + Z.to_nat idx + length vs <= length a)%nat).
Proof.
  induction args as [|v args IH]; intros idx a a' rest Hidx Hargc H.
  - cbn [va_copy_n_loop] in H. destruct (idx <=? argc) eqn:Hle; [discriminate|].
    apply Z.leb_gt in Hle. injection H as <- <-.
    exists []. repeat split; [cbn; lia|constructor|left; reflexivity].
  - cbn [va_copy_n_loop] in H. destruct (idx <=? argc) eqn:Hle.
    + apply Z.leb_le in Hle.
      destruct (va_arg_str (v :: args)) as [[v' r']|] eqn:Hv; [|discriminate].
      assert (is_char_pointer v = true /\ v' = v) as [Hptr ->]
        by (destruct v; cbn in Hv; try discriminate; injection Hv as <- _; split; reflexivity).
      unfold array_store in H.
      destruct (decide (base + Z.to_nat idx < length a)%nat) as [Hin|]; [|discriminate].
      rewrite size_t_small in H by lia.
      destruct (IH (idx + 1) _ a' rest ltac:(lia) Hargc H)
        as (vs & -> & Hlen & Hvs & Hroom).
      exists (v :: vs). repeat split.
      * cbn [length]. lia.
      * constructor; assumption.
      * right. cbn [length]. destruct Hroom as [-> | Hroom]; [cbn [length]; lia|].
        rewrite length_insert in Hroom.
        rewrite Z2Nat.inj_add in Hroom by lia. simpl (Z.to_nat 1) in Hroom. lia.
    + apply Z.leb_gt in Hle. injection H as <- <-.
      exists []. repeat split; [cbn; lia|constructor|left; reflexivity].
Qed.

(** X2.  For [argc] below [SIZE_MAX], [va_copy_n] returns exactly when at
    least [argc + 1] arguments are unread, the first [argc + 1] of them are
    character pointers, and the array has the slots [base] to [base + argc];
    it then has stored exactly those [argc + 1] arguments into these slots,
    null pointers among them like any other (it does not look for the
    sentinel), has left every other slot as it was, and has left the
    traversal behind the last argument stored.  Otherwise (too few
    arguments, or a store outside the array) its behaviour is undefined. *)
Theorem va_copy_n_characterised (args : va_list) (a a' : list cval) (base : nat)
    (argc : Z) (rest : va_list) :
  0 <= argc < SIZE_MAX ->
  va_copy_n args a base argc = Some (a', rest)
  <-> exists vs : list cval,
        args = vs ++ rest
        /\ length vs = S (Z.to_nat argc)
        /\ Forall (fun v => is_char_pointer v = true) vs
        /\ (base + length vs <= length a)%nat
        /\ a' = take base a ++ vs ++ drop (base + length vs) a.
Proof.
  unfold SIZE_MAX. intros Hargc.
  assert (Hcopy : forall vs : list cval,
             length vs = S (Z.to_nat argc) ->
             Forall (fun v => is_char_pointer v = true) vs ->
             (base + length vs <= length a)%nat ->
             va_copy_n (vs ++ rest) a base argc
             = Some (take base a ++ vs ++ drop (base + length vs) a, rest)).
  { intros vs Hlen Hvs Hroom. unfold va_copy_n.
    rewrite <- (take_drop base a) at 1.
    rewrite <- (take_drop (length vs) (drop base a)) at 1.
    rewrite drop_drop.
    replace argc with (0 + Z.of_nat (length vs) - 1) at 1 by lia.
    apply va_copy_n_loop_pointers.
    - lia.
    - lia.
    - exact Hvs.
    - rewrite length_take_le by lia. cbn. lia.
    - rewrite length_take_le; [reflexivity|]. rewrite length_drop. lia. }
  split.
  - intros H. unfold va_copy_n in H.
    destruct (va_copy_n_loop_shape base argc args 0 a a' rest ltac:(lia) ltac:(lia) H)
      as (vs & -> & Hlen & Hvs & Hroom).
    assert (Hlen' : length vs = S (Z.to_nat argc)) by lia.
    assert (Hroom' : (base + length vs <= length a)%nat).
    { destruct Hroom as [-> | Hroom]; [discriminate Hlen'|]. cbn in Hroom. lia. }
    exists vs. repeat split; try assumption.
    pose proof (Hcopy vs Hlen' Hvs Hroom') as Hrun.
    unfold va_copy_n in Hrun. rewrite H in Hrun. injection Hrun as ->. reflexivity.
  - intros (vs & -> & Hlen & Hvs & Hroom & ->). apply Hcopy; assumption.
Qed.

Lemma va_copy_n_loop_size_max (base : nat) (args : va_list) :
  forall (idx : Z) (a : list cval),
    0 <= idx < 2 ^ SIZE_WIDTH ->
    va_copy_n_loop idx args a base SIZE_MAX = None.
Proof.
  induction args as [|v args IH]; intros idx a Hidx; cbn [va_copy_n_loop];
    (replace (idx <=? SIZE_MAX) with true
       by (symmetry; apply Z.leb_le; unfold SIZE_MAX; lia)).
  - reflexivity.
  - destruct (va_arg_str (v :: args)) as [[v' r']|]; [|reflexivity].
    destruct (array_store a _ v'); [|reflexivity].
    apply IH. apply size_t_range.
Qed.

(** X3.  With [argc = SIZE_MAX] the loop condition [idx <= argc] of
    [va_copy_n] holds for every [size_t idx], so the loop cannot leave
    through its condition: it goes on until it reads an argument that was not
    passed or stores outside the array, and [va_copy_n] never returns
    normally, whatever the arguments and the array are. *)
Theorem va_copy_n_size_max (args : va_list) (a : list cval) (base : nat) :
  va_copy_n args a base SIZE_MAX = None.
Proof.
  unfold va_copy_n. apply va_copy_n_loop_size_max. rewrite size_width_pow. lia.
Qed.

Section MoreFacts.

Context (cv : Conventions) (host : Host).

(** ** When a variadic call is defined *)

Lemma handed_execl (env : list string) (path arg : string) (l : list string)
    (rest : va_list) :
  Z.of_nat (length l) < 2 ^ SIZE_WIDTH - 2 ->
  handed env (Call_execl path arg (map Str l ++ Null :: rest))
  = Some (Execve path (path :: l) env).
Proof.
  intros Hbound. cbn [handed]. rewrite stack_vector_strings by exact Hbound.
  change (Str path :: map Str l ++ [Null]) with (map Str (path :: l) ++ [Null]).
  rewrite c_strings_terminated. reflexivity.
Qed.

Lemma handed_execlp (env : list string) (file arg : string) (l : list string)
    (rest : va_list) :
  Z.of_nat (length l) < 2 ^ SIZE_WIDTH - 2 ->
  handed env (Call_execlp file arg (map Str l ++ Null :: rest))
  = Some (Execvpe file (file :: l) env).
Proof.
  intros Hbound. cbn [handed]. rewrite stack_vector_strings by exact Hbound.
  change (Str file :: map Str l ++ [Null]) with (map Str (file :: l) ++ [Null]).
  rewrite c_strings_terminated. reflexivity.
Qed.

Lemma handed_execle (env : list string) (path arg : string) (l envp : list string)
    (rest : va_list) :
  Z.of_nat (length l) < 2 ^ SIZE_WIDTH - 2 ->
  handed env (Call_execle path arg (map Str l ++ Null :: Vec envp :: rest))
  = Some (Execve path (path :: l) envp).
Proof.
  intros Hbound. cbn [handed]. rewrite stack_vector_strings by exact Hbound.
  change (Str path :: map Str l ++ [Null]) with (map Str (path :: l) ++ [Null]).
  cbn [va_arg_vec]. rewrite c_strings_terminated. reflexivity.
Qed.

Lemma handed_execle_null (env : list string) (path arg : string) (l : list string)
    (rest : va_list) :
  Z.of_nat (length l) < 2 ^ SIZE_WIDTH - 2 ->
  handed env (Call_execle path arg (map Str l ++ Null :: Null :: rest))
  = Some (Execve path (path :: l) NullEnvp).
Proof.
  intros Hbound. cbn [handed]. rewrite stack_vector_strings by exact Hbound.
  change (Str path :: map Str l ++ [Null]) with (map Str (path :: l) ++ [Null]).
  cbn [va_arg_vec]. rewrite c_strings_terminated. reflexivity.
Qed.

(** A variadic call whose marshalling is defined is well formed. *)
Lemma handed_defined_variadic (c : call) (env : list string) (r : request) :
  Z.of_nat (length (trailing c)) < 2 ^ SIZE_WIDTH - 2 ->
  is_variadic c = true ->
  handed env c = Some r ->
  well_formed_variadic c.
Proof.
  intros Hbound Hv Hr.
  destruct c; try discriminate Hv; cbn [handed trailing] in *.
  - destruct (stack_vector path va) as [[a ap]|] eqn:Hs; [|discriminate].
    destruct (stack_vector_inv _ _ _ _ Hbound Hs) as (l & -> & _).
    left. exists path, l, ap. constructor.
  - destruct (stack_vector file va) as [[a ap]|] eqn:Hs; [|discriminate].
    destruct (stack_vector_inv _ _ _ _ Hbound Hs) as (l & -> & _).
    left. exists file, l, ap. constructor.
  - destruct (stack_vector path va) as [[a ap]|] eqn:Hs; [|discriminate].
    destruct (stack_vector_inv _ _ _ _ Hbound Hs) as (l & -> & _).
    destruct ap as [|[| |e|] ap]; try discriminate.
    + right. exists path, arg, l, ap. reflexivity.
    + left. exists path, l, (Vec e :: ap). constructor.
Qed.

(** A well-formed variadic call has its marshalling defined. *)
Lemma handed_well_formed (c : call) (env : list string) :
  Z.of_nat (length (trailing c)) < 2 ^ SIZE_WIDTH - 2 ->
  well_formed_variadic c ->
  exists r, handed env c = Some r.
Proof.
  intros Hbound [(first & l & rest & Hc) | (path & arg & l & rest & ->)].
  - pose proof (trailing_variadic c first l rest Hc) as Hva.
    rewrite Hva, length_app, length_map in Hbound. cbn [length] in Hbound.
    destruct (handed_variadic c first l rest env Hc ltac:(lia))
      as (r & Hr & _).
    exists r. exact Hr.
  - cbn [trailing] in Hbound. rewrite length_app, length_map in Hbound.
    cbn [length] in Hbound.
    eexists. apply handed_execle_null. lia.
Qed.

Lemma Executor_run_defined (r : request) (w : World) :
  Executor_run cv host r w <> Undefined.
Proof.
  destruct (Executor_run_cases cv host r w)
    as [(w' & -> & _) | (fp & r' & w' & -> & _)]; discriminate.
Qed.

(** X4.  The behaviour of an entry point is undefined exactly when it is one
    of the variadic ones (execl, execlp, execle) and its variadic arguments
    are not a run of strings followed by the null sentinel, followed, for
    execle, by the environment pointer, which may be a vector or the null
    pointer: a missing sentinel, or a missing [envp] for execle, makes the
    traversal read an argument that was not passed.  The entry points that
    take an argument vector are never undefined. *)
Theorem undefined_exactly_malformed (c : call) (w : World) :
  Z.of_nat (length (trailing c)) < 2 ^ SIZE_WIDTH - 2 ->
  intercept cv host c w = Undefined
  <-> is_variadic c = true /\ ~ well_formed_variadic c.
Proof.
  intros Hbound. rewrite intercept_handed. split.
  - destruct (handed (environ w) c) as [r|] eqn:Hr.
    + intros H. exfalso. exact (Executor_run_defined _ _ H).
    + intros _. split.
      * destruct (is_variadic c) eqn:Hv; [reflexivity|].
        destruct (handed_vector_call c (environ w) Hv) as (r & Hr' & _).
        rewrite Hr in Hr'. discriminate.
      * intros Hwf.
        destruct (handed_well_formed c (environ w) Hbound Hwf) as (r & Hr').
        rewrite Hr in Hr'. discriminate.
  - intros [Hv Hmal]. destruct (handed (environ w) c) as [r|] eqn:Hr; [|reflexivity].
    exfalso. apply Hmal. exact (handed_defined_variadic c (environ w) r Hbound Hv Hr).
Qed.

(** X5.  What follows the null sentinel in a call of execl or execlp, and
    what follows [envp] in a call of execle, has no influence at all: the
    outcome of the call is the same with any other arguments there. *)
Theorem arguments_behind_sentinel_ignored (path arg : string) (l envp : list string)
    (rest rest' : va_list) (w : World) :
  Z.of_nat (length l) < 2 ^ SIZE_WIDTH - 2 ->
  execl cv host path arg (map Str l ++ Null :: rest) w
  = execl cv host path arg (map Str l ++ Null :: rest') w
  /\ execlp cv host path arg (map Str l ++ Null :: rest) w
     = execlp cv host path arg (map Str l ++ Null :: rest') w
  /\ execle cv host path arg (map Str l ++ Null :: Vec envp :: rest) w
     = execle cv host path arg (map Str l ++ Null :: Vec envp :: rest') w.
Proof.
  intros Hbound. split; [|split].
  - change (intercept cv host (Call_execl path arg (map Str l ++ Null :: rest)) w
            = intercept cv host (Call_execl path arg (map Str l ++ Null :: rest')) w).
    rewrite !intercept_handed, !handed_execl by exact Hbound. reflexivity.
  - change (intercept cv host (Call_execlp path arg (map Str l ++ Null :: rest)) w
            = intercept cv host (Call_execlp path arg (map Str l ++ Null :: rest')) w).
    rewrite !intercept_handed, !handed_execlp by exact Hbound. reflexivity.
  - change (intercept cv host
              (Call_execle path arg (map Str l ++ Null :: Vec envp :: rest)) w
            = intercept cv host
                (Call_execle path arg (map Str l ++ Null :: Vec envp :: rest')) w).
    rewrite !intercept_handed, !handed_execle by exact Hbound. reflexivity.
Qed.

Lemma strings_initialised (l : list string) :
  Forall (fun v => v <> Undef) (map Str l ++ [Null]).
Proof.
  induction l as [|s l IH]; cbn; constructor; try discriminate.
  - constructor.
  - exact IH.
Qed.

(** X6.  Whenever the block that builds the array on the stack is defined,
    the array it hands over is fully initialised: slot 0 holds the path or
    file parameter, the last slot holds the null pointer, no slot is left
    indeterminate, and a callee that reads the array as a null-terminated
    vector reads all of it but the last slot. *)
Theorem stack_vector_initialised (first : string) (va : va_list) (a : list cval)
    (ap : va_list) :
  Z.of_nat (length va) < 2 ^ SIZE_WIDTH - 2 ->
  stack_vector first va = Some (a, ap) ->
  a !! 0%nat = Some (Str first)
  /\ last a = Some Null
  /\ Forall (fun v => v <> Undef) a
  /\ exists argv, c_strings a = Some argv /\ length a = S (length argv).
Proof.
  intros Hbound Hs.
  destruct (stack_vector_inv first va a ap Hbound Hs) as (l & -> & ->).
  split; [reflexivity|]. split; [|split].
  - change (Str first :: map Str l ++ [Null]) with ((Str first :: map Str l) ++ [Null]).
    apply last_snoc.
  - constructor; [discriminate|]. apply strings_initialised.
  - exists (first :: l). split.
    + change (Str first :: map Str l ++ [Null]) with (map Str (first :: l) ++ [Null]).
      apply c_strings_terminated.
    + cbn [length]. rewrite length_app, length_map. cbn [length]. lia.
Qed.

(** ** The hooks on any sequence of invocations *)

Lemma copy_strings_cases (l : list string) :
  forall w : World,
    (exists w', Storage_copy_strings l w = Fatal w')
    \/ (exists n, Storage_copy_strings l w
                  = Ok tt (mkWorld (LOADED w) (SESSION w) n (environ w) (trace w))).
Proof.
  induction l as [|s l IH]; intros w.
  - right. exists (arena w). destruct w; reflexivity.
  - cbn [Storage_copy_strings]. unfold bind, Storage_copy_string, Storage_allocate.
    destruct (arena w + string_size s <=? BUFFER_SIZE).
    + destruct (IH (mkWorld (LOADED w) (SESSION w) (arena w + string_size s)
                      (environ w) (trace w))) as [(w' & ->) | (n & ->)].
      * left. eexists. reflexivity.
      * right. exists n. reflexivity.
    + left. eexists. reflexivity.
Qed.

(** A load of a library that is not loaded either aborts the process or
    leaves the library loaded. *)
Lemma on_load_cases (w : World) :
  LOADED w = false ->
  (exists w', on_load cv host w = Fatal w')
  \/ (exists w', on_load cv host w = Ok tt w' /\ LOADED w' = true).
Proof.
  intros Hoff. unfold on_load, bind, LOADED_exchange. rewrite Hoff.
  unfold environment_current, emit, set_SESSION, Storage_init, Session_persist,
    bind, get_SESSION. cbn -[Session_write_message Storage_copy_strings].
  match goal with
  | |- context [Storage_copy_strings ?l ?w0] =>
      destruct (copy_strings_cases l w0) as [(w' & ->) | (n & ->)]
  end.
  - left. eexists. reflexivity.
  - right. cbn -[Session_write_message]. rewrite write_message_run.
    eexists. split; reflexivity.
Qed.

(** X7.  Both hooks are idempotent: invoking a hook twice in a row has
    exactly the outcome of invoking it once, in every state of the process. *)
Theorem hooks_idempotent (w : World) :
  (do _ <- on_load cv host; on_load cv host) w = on_load cv host w
  /\ (do _ <- on_unload host; on_unload host) w = on_unload host w.
Proof.
  unfold bind. split.
  - destruct (LOADED w) eqn:Hl.
    + rewrite (on_load_again cv host w Hl). apply on_load_again. exact Hl.
    + destruct (on_load_cases w Hl) as [(w' & ->) | (w' & -> & Hon)];
        [reflexivity|]. apply on_load_again. exact Hon.
  - destruct (LOADED w) eqn:Hl.
    + destruct (on_unload_loaded host w Hl) as (w' & -> & Hoff & _).
      apply on_unload_again. exact Hoff.
    + rewrite (on_unload_again host w Hl). apply on_unload_again. exact Hl.
Qed.

(** X8.  On every sequence of hook invocations, in a process whose
    configuration fits the static buffer: the run returns; the guard ends as
    the last hook left it; the Session is constructed exactly at the loads
    that find the library not loaded, and the unload report is requested
    exactly at the unloads that find it loaded; the environment is not
    touched. *)
Theorem hooks_follow_guard (hs : list hook) :
  forall w : World,
    persist_size cv (environ w) <= BUFFER_SIZE ->
    exists w',
      run_hooks cv host hs w = Ok tt w'
      /\ LOADED w' = guard_after (LOADED w) hs
      /\ constructions (trace w')
         = (constructions (trace w) + load_edges (LOADED w) hs)%nat
      /\ reports "on_unload" (trace w')
         = (reports "on_unload" (trace w) + unload_edges (LOADED w) hs)%nat
      /\ environ w' = environ w.
Proof.
  induction hs as [|h hs IH]; intros w Hfit.
  - exists w. cbn. repeat split; lia.
  - cbn [run_hooks]. unfold bind.
    destruct h; cbn [run_hook guard_after fold_left load_edges unload_edges];
      destruct (LOADED w) eqn:Hl.
    + rewrite (on_load_again cv host w Hl).
      destruct (IH w Hfit) as (w' & Hrun & Hg & Hc & Hr & He).
      exists w'. rewrite Hl in *. repeat split; try assumption; lia.
    + destruct (on_load_fresh cv host w Hl Hfit) as (w1 & -> & Hon & Henv & Ht).
      destruct (IH w1 ltac:(rewrite Henv; exact Hfit)) as (w' & Hrun & Hg & Hc & Hr & He).
      exists w'. rewrite Hon in *. repeat split; try assumption.
      * rewrite Hc, Ht, constructions_app, constructions_from,
          constructions_reported. lia.
      * rewrite Hr, Ht. change (SessionFrom ?e :: ?t) with ([SessionFrom e] ++ t).
        rewrite !reports_app, reports_reported. cbn. lia.
      * congruence.
    + destruct (on_unload_loaded host w Hl) as (w1 & -> & Hoff & _ & Henv & Ht).
      destruct (IH w1 ltac:(rewrite Henv; exact Hfit)) as (w' & Hrun & Hg & Hc & Hr & He).
      exists w'. rewrite Hoff in *. repeat split; try assumption.
      * rewrite Hc, Ht, constructions_app, constructions_reported. lia.
      * rewrite Hr, Ht, reports_app, reports_reported. cbn. lia.
      * congruence.
    + rewrite (on_unload_again host w Hl).
      destruct (IH w Hfit) as (w' & Hrun & Hg & Hc & Hr & He).
      exists w'. rewrite Hl in *. repeat split; try assumption; lia.
Qed.

(** ** What an intercepted call depends on *)

Lemma graft_add_events {A : Type} (w : World) (es : list event) (r : Res A) :
  graft (add_events w es) r = graft w (graft (add_events (blank w) es) r).
Proof.
  destruct r as [a w0|w0|]; cbn; rewrite <- ?app_assoc; reflexivity.
Qed.

Lemma Executor_run_graft (r : request) (w : World) :
  Executor_run cv host r w = graft w (Executor_run cv host r (blank w)).
Proof.
  unfold Executor_run, bind, emit, get_SESSION, Resolver_resolve, dynamic_linker.
  cbn.
  destruct (dlsym_next host (symbol r)) as [fp|]; cbn; [|reflexivity].
  destruct (if Session_enabled (SESSION w) then reporter (SESSION w) else None)
    as [sup|].
  2:{ unfold call_through, bind, emit, ret. cbn. rewrite snoc_snoc. reflexivity. }
  destruct (String.eqb (target_of r) sup).
  { unfold call_through, bind, emit, ret. cbn. rewrite snoc_snoc. reflexivity. }
  unfold Storage_allocate_array, Storage_allocate, environment_merge, bind. cbn.
  match goal with |- context [if ?c then _ else _] => destruct c end; cbn;
    [|reflexivity].
  unfold Storage_allocate_array, Storage_allocate, bind. cbn.
  match goal with |- context [if ?c then _ else _] => destruct c end; cbn;
    [|reflexivity].
  unfold call_through, bind, emit, ret. cbn. rewrite snoc_snoc. reflexivity.
Qed.

Lemma intercept_graft (c : call) (w : World) :
  intercept cv host c w = graft w (intercept cv host c (blank w)).
Proof.
  rewrite !intercept_handed. cbn [blank environ SESSION].
  destruct (handed (environ w) c) as [r|]; [|reflexivity].
  rewrite Executor_run_graft.
  rewrite (Executor_run_graft r (add_events (blank w) _)).
  apply graft_add_events.
Qed.

(** X9.  An intercepted call depends on the process only through the
    Session, the arena and the environment: it neither reads nor writes the
    guard [LOADED] (so calls are intercepted alike before the library was
    loaded, while it is loaded, and after it was unloaded), it does not read
    the events so far, and it only appends to them. *)
Theorem intercept_ignores_guard (c : call) (w : World) :
  intercept cv host c w = graft w (intercept cv host c (blank w))
  /\ (forall w', world_of (intercept cv host c w) = Some w' ->
        LOADED w' = LOADED w /\ exists es, trace w' = trace w ++ es).
Proof.
  split; [apply intercept_graft|].
  intros w'. rewrite intercept_graft.
  destruct (intercept cv host c (blank w)) as [v w0|w0|]; cbn; intros H;
    try discriminate; injection H as <-; cbn; eauto.
Qed.

(** X10.  The unload hook always returns, leaves the library not loaded,
    and does not retire the Session: the Session, the arena and the
    environment are as before, so every call intercepted after the unload
    has the outcome it would have had before it. *)
Theorem unload_keeps_session (w : World) :
  exists w1,
    on_unload host w = Ok tt w1
    /\ LOADED w1 = false
    /\ blank w1 = blank w
    /\ forall c, intercept cv host c w1 = graft w1 (intercept cv host c (blank w)).
Proof.
  destruct (LOADED w) eqn:Hl.
  - destruct (on_unload_loaded host w Hl) as (w1 & Hrun & Hoff & Hs & He & Ht).
    assert (Hb : blank w1 = blank w).
    { unfold blank. rewrite Hs, He. f_equal.
      unfold on_unload, bind, LOADED_exchange in Hrun. rewrite Hl in Hrun.
      cbv beta iota in Hrun. cbn [negb] in Hrun.
      rewrite write_message_run in Hrun. injection Hrun as <-. reflexivity. }
    exists w1. repeat split; try assumption.
    intros c. rewrite <- Hb. apply intercept_graft.
  - exists w. rewrite (on_unload_again host w Hl). repeat split; [exact Hl|].
    intros c. apply intercept_graft.
Qed.

(** ** How the entry points reduce to one another *)

Lemma same_handed (c c' : call) (w : World) :
  handed (environ w) c = handed (environ w) c' ->
  same_but_name cv host c c' w.
Proof.
  intros H. unfold same_but_name. rewrite !intercept_handed, <- H.
  destruct (handed (environ w) c) as [r|].
  - exists (Executor_run cv host r (blank w)).
    split; apply (Executor_run_graft r (add_events w _)).
  - exists Undefined. split; reflexivity.
Qed.

(** X11.  But for the name in the report, the entry points reduce to the
    two that take everything explicitly: exect is execve; execv and execvp
    are execve and execvpe with the live environment; and a variadic call
    with the strings [l] before the sentinel is the vector call on
    [path :: l] (respectively [file :: l]): execl is execv, execlp is execvp,
    execle is execve with the [envp] read behind the sentinel. *)
Theorem entry_points_reduce (path arg : string) (argv l envp : list string)
    (rest : va_list) (w : World) :
  Z.of_nat (length l) < 2 ^ SIZE_WIDTH - 2 ->
  same_but_name cv host (Call_exect path argv envp) (Call_execve path argv envp) w
  /\ same_but_name cv host (Call_execv path argv)
       (Call_execve path argv (environ w)) w
  /\ same_but_name cv host (Call_execvp path argv)
       (Call_execvpe path argv (environ w)) w
  /\ same_but_name cv host (Call_execl path arg (map Str l ++ Null :: rest))
       (Call_execv path (path :: l)) w
  /\ same_but_name cv host (Call_execlp path arg (map Str l ++ Null :: rest))
       (Call_execvp path (path :: l)) w
  /\ same_but_name cv host
       (Call_execle path arg (map Str l ++ Null :: Vec envp :: rest))
       (Call_execve path (path :: l) envp) w.
Proof.
  intros Hbound.
  split; [apply same_handed; reflexivity|].
  split; [apply same_handed; reflexivity|].
  split; [apply same_handed; reflexivity|].
  split; [apply same_handed; rewrite handed_execl by exact Hbound; reflexivity|].
  split; [apply same_handed; rewrite handed_execlp by exact Hbound; reflexivity|].
  apply same_handed. rewrite handed_execle by exact Hbound. reflexivity.
Qed.

End MoreFacts.

(** * The further properties on concrete inputs *)

(** The second traversal of [execle("/bin/ls", "ls", "-la", nullptr, envp)]:
    two arguments are stored behind slot 0, [envp] is left unread. *)
Lemma va_copy_n_characterised_witness :
  0 <= 1 < SIZE_MAX
  /\ (va_copy_n [Str "-la"; Null; Vec ["A=1"]] [Str "/bin/ls"; Undef; Undef] 1 1
      = Some ([Str "/bin/ls"; Str "-la"; Null], [Vec ["A=1"]])
      <-> exists vs : list cval,
            [Str "-la"; Null; Vec ["A=1"]] = vs ++ [Vec ["A=1"]]
            /\ length vs = S (Z.to_nat 1)
            /\ Forall (fun v => is_char_pointer v = true) vs
            /\ (1 + length vs <= length [Str "/bin/ls"; Undef; Undef])%nat
            /\ [Str "/bin/ls"; Str "-la"; Null]
               = take 1 [Str "/bin/ls"; Undef; Undef] ++ vs
                 ++ drop (1 + length vs) [Str "/bin/ls"; Undef; Undef]).
Proof.
  assert (H : 0 <= 1 < SIZE_MAX) by (unfold SIZE_MAX, SIZE_WIDTH; lia).
  split; [exact H|].
  apply (va_copy_n_characterised [Str "-la"; Null; Vec ["A=1"]]
           [Str "/bin/ls"; Undef; Undef] [Str "/bin/ls"; Str "-la"; Null] 1 1
           [Vec ["A=1"]]).
  exact H.
Defined.

(** [execl("/bin/ls", "ls", "-la")] without the sentinel. *)
Lemma undefined_exactly_malformed_witness :
  Z.of_nat (length (trailing sample_execl_unterminated)) < 2 ^ SIZE_WIDTH - 2
  /\ (intercept sample_conventions sample_host sample_execl_unterminated
        (initial_world plain_environ) = Undefined
      <-> is_variadic sample_execl_unterminated = true
          /\ ~ well_formed_variadic sample_execl_unterminated).
Proof.
  split; [vm_compute; reflexivity|].
  apply (undefined_exactly_malformed sample_conventions sample_host
           sample_execl_unterminated (initial_world plain_environ)).
  vm_compute; reflexivity.
Defined.

(** [execle] with a null [envp]: the call is defined, and the Executor is
    handed the null pointer as environment; with a disabled Session so is
    the original [execve]. *)
Lemma execle_null_environment :
  well_formed_variadic sample_execle_null
  /\ handed plain_environ sample_execle_null
     = Some (Execve "/bin/ls" ["/bin/ls"; "-la"] NullEnvp)
  /\ exists w',
       intercept sample_conventions sample_host sample_execle_null
         (loaded_world plain_environ) = Ok (Returned (-1) None) w'
       /\ delegated (trace w') = [Execve "/bin/ls" ["/bin/ls"; "-la"] NullEnvp].
Proof.
  split; [right; exists "/bin/ls", "ls", ["-la"], []; reflexivity|].
  split; [vm_compute; reflexivity|].
  run_to_world (intercept sample_conventions sample_host sample_execle_null
                  (loaded_world plain_environ)).
  split; vm_compute; reflexivity.
Qed.

(** A missing sentinel and a missing [envp], evaluated. *)
Lemma malformed_calls_undefined :
  intercept sample_conventions sample_host sample_execl_unterminated
    (initial_world plain_environ) = Undefined
  /\ intercept sample_conventions sample_host sample_execle_short
       (initial_world plain_environ) = Undefined.
Proof. split; vm_compute; reflexivity. Qed.

(** [execl("/bin/ls", "ls", "-la", nullptr)] against the same call with one
    more argument behind the sentinel. *)
Lemma arguments_behind_sentinel_ignored_witness :
  Z.of_nat (length ["-la"]) < 2 ^ SIZE_WIDTH - 2
  /\ execl sample_conventions sample_host "/bin/ls" "ls"
       (map Str ["-la"] ++ Null :: []) (initial_world plain_environ)
     = execl sample_conventions sample_host "/bin/ls" "ls"
         (map Str ["-la"] ++ Null :: [Str "-R"]) (initial_world plain_environ)
  /\ execlp sample_conventions sample_host "/bin/ls" "ls"
       (map Str ["-la"] ++ Null :: []) (initial_world plain_environ)
     = execlp sample_conventions sample_host "/bin/ls" "ls"
         (map Str ["-la"] ++ Null :: [Str "-R"]) (initial_world plain_environ)
  /\ execle sample_conventions sample_host "/bin/ls" "ls"
       (map Str ["-la"] ++ Null :: Vec ["A=1"] :: []) (initial_world plain_environ)
     = execle sample_conventions sample_host "/bin/ls" "ls"
         (map Str ["-la"] ++ Null :: Vec ["A=1"] :: [Str "-R"])
         (initial_world plain_environ).
Proof.
  split; [vm_compute; reflexivity|].
  apply (arguments_behind_sentinel_ignored sample_conventions sample_host
           "/bin/ls" "ls" ["-la"] ["A=1"] [] [Str "-R"] (initial_world plain_environ)).
  vm_compute; reflexivity.
Defined.

(** The array built for [execl("/bin/ls", "ls", "-la", nullptr)]. *)
Lemma stack_vector_initialised_witness :
  Z.of_nat (length [Str "-la"; Null]) < 2 ^ SIZE_WIDTH - 2
  /\ stack_vector "/bin/ls" [Str "-la"; Null]
     = Some ([Str "/bin/ls"; Str "-la"; Null], [])
  /\ [Str "/bin/ls"; Str "-la"; Null] !! 0%nat = Some (Str "/bin/ls")
  /\ last [Str "/bin/ls"; Str "-la"; Null] = Some Null
  /\ Forall (fun v => v <> Undef) [Str "/bin/ls"; Str "-la"; Null]
  /\ exists argv,
       c_strings [Str "/bin/ls"; Str "-la"; Null] = Some argv
       /\ length [Str "/bin/ls"; Str "-la"; Null] = S (length argv).
Proof.
  split; [vm_compute; reflexivity|]. split; [reflexivity|].
  apply (stack_vector_initialised "/bin/ls" [Str "-la"; Null]
           [Str "/bin/ls"; Str "-la"; Null] []).
  - vm_compute; reflexivity.
  - reflexivity.
Defined.

(** Load, load, unload, unload, load: two constructions, one unload report,
    and the library ends loaded. *)
Lemma hooks_follow_guard_witness :
  persist_size sample_conventions (environ (initial_world enabled_environ))
  <= BUFFER_SIZE
  /\ exists w',
       run_hooks sample_conventions sample_host [Load; Load; Unload; Unload; Load]
         (initial_world enabled_environ) = Ok tt w'
       /\ LOADED w'
          = guard_after (LOADED (initial_world enabled_environ))
              [Load; Load; Unload; Unload; Load]
       /\ constructions (trace w')
          = (constructions (trace (initial_world enabled_environ))
             + load_edges (LOADED (initial_world enabled_environ))
                 [Load; Load; Unload; Unload; Load])%nat
       /\ reports "on_unload" (trace w')
          = (reports "on_unload" (trace (initial_world enabled_environ))
             + unload_edges (LOADED (initial_world enabled_environ))
                 [Load; Load; Unload; Unload; Load])%nat
       /\ environ w' = environ (initial_world enabled_environ).
Proof.
  assert (Hfit : persist_size sample_conventions
                   (environ (initial_world enabled_environ)) <= BUFFER_SIZE).
  { replace (persist_size sample_conventions
               (environ (initial_world enabled_environ))) with 120
      by (vm_compute; reflexivity).
    unfold BUFFER_SIZE. lia. }
  split; [exact Hfit|].
  apply (hooks_follow_guard sample_conventions sample_host
           [Load; Load; Unload; Unload; Load] (initial_world enabled_environ)).
  exact Hfit.
Defined.

(** [execl("/bin/ls", "ls", "-la", nullptr)] is [execv] on
    [{"/bin/ls", "-la"}], and so on, in a process with an enabled Session. *)
Lemma entry_points_reduce_witness :
  Z.of_nat (length ["-la"]) < 2 ^ SIZE_WIDTH - 2
  /\ same_but_name sample_conventions sample_host
       (Call_exect "/bin/ls" ["ls"] ["A=1"]) (Call_execve "/bin/ls" ["ls"] ["A=1"])
       (loaded_world enabled_environ)
  /\ same_but_name sample_conventions sample_host
       (Call_execv "/bin/ls" ["ls"])
       (Call_execve "/bin/ls" ["ls"] (environ (loaded_world enabled_environ)))
       (loaded_world enabled_environ)
  /\ same_but_name sample_conventions sample_host
       (Call_execvp "/bin/ls" ["ls"])
       (Call_execvpe "/bin/ls" ["ls"] (environ (loaded_world enabled_environ)))
       (loaded_world enabled_environ)
  /\ same_but_name sample_conventions sample_host
       (Call_execl "/bin/ls" "ls" (map Str ["-la"] ++ Null :: []))
       (Call_execv "/bin/ls" ("/bin/ls" :: ["-la"])) (loaded_world enabled_environ)
  /\ same_but_name sample_conventions sample_host
       (Call_execlp "/bin/ls" "ls" (map Str ["-la"] ++ Null :: []))
       (Call_execvp "/bin/ls" ("/bin/ls" :: ["-la"])) (loaded_world enabled_environ)
  /\ same_but_name sample_conventions sample_host
       (Call_execle "/bin/ls" "ls" (map Str ["-la"] ++ Null :: Vec ["A=1"] :: []))
       (Call_execve "/bin/ls" ("/bin/ls" :: ["-la"]) ["A=1"])
       (loaded_world enabled_environ).
Proof.
  split; [vm_compute; reflexivity|].
  apply (entry_points_reduce sample_conventions sample_host "/bin/ls" "ls"
           ["ls"] ["-la"] ["A=1"] [] (loaded_world enabled_environ)).
  vm_compute; reflexivity.
Defined.
